(** * A compressed prefix tree (radix trie): model of [code-example/trie.py]

    The Python class [Trie] keeps a tree of [_TrieNode] objects and an
    integer [_size].  Every public method walks the tree with a [while]
    loop and mutates nodes in place.  The tree is never shared (each node
    has one parent), so the in-place updates are modelled by rebuilding the
    path from the root to the updated node: one loop iteration of the Python
    code is one recursive call on the child that the loop descends into.

    - [str] keys are lists of characters ([list ascii], the characters with
      code points below 256, ordered by code point);
    - a [dict] of children is an insertion-ordered association list;
    - a Python value is [option V]: [None] is Python's [None];
    - [_size] is a Python integer ([Z]);
    - the generator [keys_with_prefix] is the list of the keys it yields
      when it is consumed to the end.

    The file has three parts: the model of the code (the trie, then the
    handlers of [code-example/app.py] that call it) and the notions used to
    state its properties; the lemmas and theorems; the scenarios, on
    concrete tries. *)

From Stdlib Require Import Ascii String List Bool Arith ZArith Lia.
From Stdlib Require Import Sorting.Sorted Permutation.
Import ListNotations.

Set Implicit Arguments.

(** ** Strings *)

Definition str := list ascii.

(** [s2l "abc"] is the key written as a string literal. *)
Definition s2l (s : string) : str := list_ascii_of_string s.

(** Order of two characters: the order of their code points. *)
Definition char_ltb (a b : ascii) : bool := (nat_of_ascii a <? nat_of_ascii b)%nat.
Definition char_lt (a b : ascii) : Prop := (nat_of_ascii a < nat_of_ascii b)%nat.
Definition char_ge (a b : ascii) : Prop := (nat_of_ascii b <= nat_of_ascii a)%nat.

(** Python's [<] on [str]: lexicographic, a proper prefix comes first. *)
Fixpoint str_ltb (s t : str) : bool :=
  match s, t with
  | [], [] => false
  | [], _ :: _ => true
  | _ :: _, [] => false
  | a :: s', b :: t' =>
      if char_ltb a b then true
      else if Ascii.eqb a b then str_ltb s' t' else false
  end.

Definition str_lt (s t : str) : Prop := str_ltb s t = true.

(** [key.startswith(p)] *)
Fixpoint startswith (key p : str) {struct p} : bool :=
  match p, key with
  | [], _ => true
  | _ :: _, [] => false
  | b :: p', a :: key' => Ascii.eqb a b && startswith key' p'
  end.

(** The inner loop of [insert] and [_find_node]:
    [while j < len(fragment) and i + j < len(key) and key[i + j] == fragment[j]: j += 1],
    on [key[i:]] and [fragment]; the result is the final [j]. *)
Fixpoint match_len (key fragment : str) : nat :=
  match key, fragment with
  | a :: key', b :: fragment' =>
      if Ascii.eqb a b then S (match_len key' fragment') else 0
  | _, _ => 0
  end.

(** ** Dictionaries keyed by one character *)

Section Dict.
Variable A : Type.

Definition dict := list (ascii * A).

(** [d[c]], [None] when [c not in d]. *)
Fixpoint lookup (c : ascii) (d : dict) : option A :=
  match d with
  | [] => None
  | (c', a) :: d' => if Ascii.eqb c' c then Some a else lookup c d'
  end.

(** [d[c] = a]: an existing key keeps its position, a new one goes last. *)
Fixpoint update (c : ascii) (a : A) (d : dict) : dict :=
  match d with
  | [] => [(c, a)]
  | (c', a') :: d' =>
      if Ascii.eqb c' c then (c', a) :: d' else (c', a') :: update c a d'
  end.

(** [del d[c]] *)
Fixpoint remove (c : ascii) (d : dict) : dict :=
  match d with
  | [] => []
  | (c', a') :: d' =>
      if Ascii.eqb c' c then d' else (c', a') :: remove c d'
  end.

(** [f d[c]], for a [f] that is the rest of the loop body. *)
Fixpoint lookup_with (R : Type) (c : ascii) (f : A -> R) (d : dict) : option R :=
  match d with
  | [] => None
  | (c', a) :: d' => if Ascii.eqb c' c then Some (f a) else lookup_with c f d'
  end.

(** [d[c] = a'] where [(a', r) = f d[c]]: the loop body updates the
    child in place and reports [r]. *)
Fixpoint alter_with (R : Type) (c : ascii) (f : A -> A * R) (d : dict)
  : option (dict * R) :=
  match d with
  | [] => None
  | (c', a) :: d' =>
      if Ascii.eqb c' c then
        let (a', r) := f a in Some ((c', a') :: d', r)
      else
        match alter_with c f d' with
        | Some (d'', r) => Some ((c', a) :: d'', r)
        | None => None
        end
  end.
End Dict.

(** ** Nodes and the trie *)

Section Trie.
(** The payloads other than [None]. *)
Variable V : Type.

Definition pyval := option V.

(** [_TrieNode] *)
Unset Elimination Schemes.
Inductive node : Type :=
  Node (children : list (ascii * node)) (is_end : bool) (value : pyval)
       (fragment : str).
Set Elimination Schemes.

Definition children (n : node) : dict node := let (c, _, _, _) := n in c.
Definition is_end (n : node) : bool := let (_, e, _, _) := n in e.
Definition value (n : node) : pyval := let (_, _, v, _) := n in v.
Definition fragment (n : node) : str := let (_, _, _, f) := n in f.

(** [Trie]: the root and [_size]. *)
Record trie : Type := Trie { root : node; size : Z }.

(** [Trie.__init__] *)
Definition empty : trie := Trie (Node [] false None []) 0.

(** *** insert *)

(** [insert] from a node on, [key] being [key[i:]].  The result is the
    updated node and whether [self._size += 1] ran. *)
Fixpoint insert_node (n : node) (key : str) (v : pyval) {struct n} : node * bool :=
  match n with
  | Node cs e val frag =>
      match key with
      | [] =>
          (* Exhausted key: mark current node as end. *)
          (Node cs true v frag, negb e)
      | char :: _ =>
          match lookup char cs with
          | None =>
              (* No matching child: a leaf with the remaining suffix. *)
              (Node (update char (Node [] true v key) cs) e val frag, true)
          | Some child =>
              let j := match_len key (fragment child) in
              if (j =? length (fragment child))%nat then
                (* The entire fragment matched: descend into the child. *)
                match alter_with char (fun ch => insert_node ch (skipn j key) v) cs with
                | Some (cs', grew) => (Node cs' e val frag, grew)
                | None => (n, false)
                end
              else
                (* Partial match: split the existing node. *)
                let child' :=
                  Node (children child) (is_end child) (value child)
                       (skipn j (fragment child)) in
                let split_children :=
                  update (nth j (fragment child) zero) child' [] in
                if (j =? length key)%nat then
                  (Node (update char
                           (Node split_children true v (firstn j (fragment child)))
                           cs) e val frag, true)
                else
                  let remaining := skipn j key in
                  let new_leaf := Node [] true v remaining in
                  (Node (update char
                           (Node (update (hd zero remaining) new_leaf split_children)
                                 false None (firstn j (fragment child)))
                           cs) e val frag, true)
          end
      end
  end.

Definition insert (t : trie) (key : str) (v : pyval) : trie :=
  let (r, grew) := insert_node (root t) key v in
  Trie r (if grew then size t + 1 else size t)%Z.

(** *** _find_node, search, starts_with, __contains__ *)

Fixpoint find_node (n : node) (key : str) {struct n} : option node :=
  match n with
  | Node cs _ _ _ =>
      match key with
      | [] => Some n
      | char :: _ =>
          match
            lookup_with char
              (fun child =>
                 let j := match_len key (fragment child) in
                 if (j <? length (fragment child))%nat then
                   (* inside a compressed edge *)
                   if (j =? length key)%nat then Some child else None
                 else find_node child (skipn j key))
              cs
          with
          | Some r => r
          | None => None
          end
      end
  end.

Definition search (t : trie) (key : str) : pyval :=
  match find_node (root t) key with
  | Some n => if is_end n then value n else None
  | None => None
  end.

Definition starts_with (t : trie) (prefix : str) : bool :=
  match find_node (root t) prefix with
  | Some _ => true
  | None => false
  end.

Definition contains (t : trie) (key : str) : bool :=
  match search t key with
  | Some _ => true
  | None => false
  end.

(** *** delete *)

(** The merge step at the end of [delete]:
    [if len(node.children) == 1 and not node.is_end and path]. *)
Definition merge (nonroot : bool) (n : node) : node :=
  match children n with
  | [(_, only_child)] =>
      if negb (is_end n) && nonroot then
        Node (children only_child) (is_end only_child) (value only_child)
             (fragment n ++ fragment only_child)
      else n
  | _ => n
  end.

(** One test of the prune loop
    [while path and not node.children and not node.is_end] at [n], where
    [nonroot] is the truth value of [path].  [(true, n)]: the body runs,
    the parent deletes its edge to [n] and the loop goes on there.
    [(false, n')]: the loop ends at [n], [n'] is [n] after the merge step. *)
Definition cleanup (nonroot : bool) (n : node) : bool * node :=
  match children n with
  | [] => if nonroot && negb (is_end n) then (true, n) else (false, merge nonroot n)
  | _ :: _ => (false, merge nonroot n)
  end.

(** [delete] from a node on, [key] being [key[i:]] and [nonroot] the truth
    value of [path].  [None] is [return False]. *)
Fixpoint delete_node (n : node) (key : str) (nonroot : bool) {struct n}
  : option (bool * node) :=
  match n with
  | Node cs e val frag =>
      match key with
      | [] =>
          if e then Some (cleanup nonroot (Node cs false None frag)) else None
      | char :: _ =>
          match
            lookup_with char
              (fun child =>
                 if startswith key (fragment child) then
                   delete_node child (skipn (length (fragment child)) key) true
                 else None)
              cs
          with
          | None => None
          | Some None => None
          | Some (Some (true, _)) => Some (cleanup nonroot (Node (remove char cs) e val frag))
          | Some (Some (false, child')) => Some (false, Node (update char child' cs) e val frag)
          end
      end
  end.

Definition delete (t : trie) (key : str) : bool * trie :=
  match delete_node (root t) key false with
  | None => (false, t)
  | Some (_, r) => (true, Trie r (size t - 1))
  end.

(** *** keys_with_prefix, __iter__, __len__ *)

(** [sorted(keys, reverse=True)] *)
Fixpoint insert_desc (c : ascii) (l : list ascii) : list ascii :=
  match l with
  | [] => [c]
  | d :: l' => if char_ltb c d then d :: insert_desc c l' else c :: l
  end.

Definition sorted_desc (l : list ascii) : list ascii :=
  fold_right insert_desc [] l.

Fixpoint node_count (n : node) : nat :=
  match n with
  | Node cs _ _ _ => S (list_sum (map (fun p => node_count (snd p)) cs))
  end.

(** The [for ch in sorted(current.children, reverse=True)] loop: every
    child is pushed on the stack, whose top is the head of the list. *)
Definition push_children (current : node) (acc : str) (stack : list (node * str))
  : list (node * str) :=
  fold_left
    (fun st ch =>
       match lookup ch (children current) with
       | Some child => (child, acc ++ fragment child) :: st
       | None => st
       end)
    (sorted_desc (map fst (children current))) stack.

(** The [while stack] loop; the result is the sequence of yielded keys.
    Each iteration pops one node, so [fuel] bounds the number of nodes
    still to visit. *)
Fixpoint dfs (fuel : nat) (stack : list (node * str)) : list str :=
  match fuel with
  | O => []
  | S fuel' =>
      match stack with
      | [] => []
      | (current, acc) :: stack' =>
          (if is_end current then [acc] else [])
            ++ dfs fuel' (push_children current acc stack')
      end
  end.

(** The number of nodes below the children of a node. *)
Definition node_sum (cs : dict node) : nat :=
  list_sum (map (fun p => node_count (snd p)) cs).

(** The nodes that the loop still has to visit. *)
Definition stack_count (stack : list (node * str)) : nat :=
  list_sum (map (fun p => node_count (fst p)) stack).

Definition keys_with_prefix (t : trie) (prefix : str) : list str :=
  match find_node (root t) prefix with
  | None => []
  | Some n => dfs (node_count n) [(n, prefix)]
  end.

Definition iter (t : trie) : list str := keys_with_prefix t [].

Definition len (t : trie) : Z := size t.

(** ** Stored keys

    [lands n k m]: the walk from [n] that consumes [k] by whole fragments
    ends on the node [m] (the walk of [delete]). *)
Inductive lands : node -> str -> node -> Prop :=
| lands_here (n : node) : lands n [] n
| lands_step (n : node) (c : ascii) (k : str) (child : node) (k' : str) (m : node) :
    lookup c (children n) = Some child ->
    c :: k = fragment child ++ k' ->
    lands child k' m ->
    lands n (c :: k) m.

(** [k] is a stored key below [n]: its walk ends on a terminal node. *)
Definition stored_at (n : node) (k : str) : Prop :=
  exists m, lands n k m /\ is_end m = true.

Definition stored (t : trie) (k : str) : Prop := stored_at (root t) k.

(** [k] is stored below the edge to [child]: the fragment of [child]
    followed by a key stored below [child]. *)
Definition through (child : node) (k : str) : Prop :=
  exists k', k = fragment child ++ k' /\ stored_at child k'.

(** The states of a [Trie] object: [Trie()] followed by calls of [insert]
    and [delete]. *)
Inductive reachable : trie -> Prop :=
| reach_empty : reachable empty
| reach_insert (t : trie) (k : str) (v : pyval) :
    reachable t -> reachable (insert t k v)
| reach_delete (t : trie) (k : str) : reachable t -> reachable (snd (delete t k)).

(** ** The shape of the tree

    [edge c child]: the fragment of the child under the key [c] begins
    with [c].  [branching n]: a node that is not terminal has at least two
    children.  [wf n]: below [n], the keys of every dictionary are
    distinct and every child satisfies [edge] and [branching]. *)
Definition edge (c : ascii) (child : node) : Prop :=
  hd_error (fragment child) = Some c.

Definition branching (n : node) : Prop :=
  is_end n = false -> 2 <= length (children n).

Unset Elimination Schemes.
Inductive wf : node -> Prop :=
| wf_intro (cs : dict node) (e : bool) (val : pyval) (frag : str) :
    NoDup (map fst cs) ->
    Forall (fun p => edge (fst p) (snd p) /\ branching (snd p) /\ wf (snd p)) cs ->
    wf (Node cs e val frag).
Set Elimination Schemes.

(** [clean n]: below [n], a node that is not terminal holds the value
    [None]. *)
Unset Elimination Schemes.
Inductive clean : node -> Prop :=
| clean_intro (cs : dict node) (e : bool) (val : pyval) (frag : str) :
    (e = false -> val = None) ->
    Forall (fun p => clean (snd p)) cs ->
    clean (Node cs e val frag).
Set Elimination Schemes.

(** ** Counting terminal nodes *)

Fixpoint terminals (n : node) : nat :=
  match n with
  | Node cs e _ _ =>
      (if e then 1 else 0) + list_sum (map (fun p => terminals (snd p)) cs)
  end.

Definition sum_terminals (cs : dict (node)) : nat :=
  list_sum (map (fun p => terminals (snd p)) cs).

(** ** The traversal order

    [children_asc n]: the children of [n] by ascending key, the order in
    which the stack loop pops them. *)
Definition children_asc (n : node) : list (ascii * node) :=
  flat_map
    (fun ch =>
       match lookup ch (children n) with
       | Some child => [(ch, child)]
       | None => []
       end)
    (rev (sorted_desc (map fst (children n)))).

(** The keys below [n] in pre-order, [acc] being the key of [n]. *)
Fixpoint preorder (n : node) (acc : str) {struct n} : list str :=
  match n with
  | Node cs e _ _ =>
      (if e then [acc] else [])
        ++ flat_map
             (fun ch =>
                match
                  lookup_with ch
                    (fun child => preorder child (acc ++ fragment child)) cs
                with
                | Some l => l
                | None => []
                end)
             (rev (sorted_desc (map fst cs)))
  end.

(** Strictly ascending sequences of keys. *)
Definition ascending (l : list str) : Prop := StronglySorted str_lt l.

(** ** Sequences of calls and the dictionary they describe

    [run ops] is the trie after the calls [ops] on [Trie()].  [model ops k]
    is what a Python [dict] would hold for [k] after the same calls:
    [Some v] when [k] is present with the value [v], [None] when it is
    missing. *)
Fixpoint str_eqb (a b : str) : bool :=
  match a, b with
  | [], [] => true
  | x :: a', y :: b' => Ascii.eqb x y && str_eqb a' b'
  | _, _ => false
  end.

Inductive op : Type :=
| OpInsert (k : str) (v : pyval)
| OpDelete (k : str).

Definition apply_op (t : trie) (o : op) : trie :=
  match o with
  | OpInsert k v => insert t k v
  | OpDelete k => snd (delete t k)
  end.

Definition run (ops : list op) : trie := fold_left apply_op ops empty.

Definition model_op (m : str -> option pyval) (o : op) : str -> option pyval :=
  match o with
  | OpInsert k v => fun k' => if str_eqb k' k then Some v else m k'
  | OpDelete k => fun k' => if str_eqb k' k then None else m k'
  end.

Definition model (ops : list op) : str -> option pyval :=
  fold_left model_op ops (fun _ => None).

(** ** Deciding whether a key is stored

    The descent of [delete] (its first loop) on its own: the node on which
    the walk by whole fragments ends. *)
Fixpoint walk (n : node) (key : str) {struct n} : option node :=
  match n with
  | Node cs _ _ _ =>
      match key with
      | [] => Some n
      | char :: _ =>
          match
            lookup_with char
              (fun child =>
                 if startswith key (fragment child) then
                   walk child (skipn (length (fragment child)) key)
                 else None)
              cs
          with
          | Some r => r
          | None => None
          end
      end
  end.

Definition is_stored (t : trie) (k : str) : bool :=
  match walk (root t) k with
  | Some m => is_end m
  | None => false
  end.

(** ** Nodes of the tree

    [below r m]: [m] is a node of the tree of [r] other than [r]. *)
Inductive below (r : node) : node -> Prop :=
| below_child (c : ascii) (child : node) :
    In (c, child) (children r) -> below r child
| below_step (m : node) (c : ascii) (child : node) :
    below r m -> In (c, child) (children m) -> below r child.

(** The first characters of the edges that leave [n]. *)
Definition first_chars (n : node) : list (option ascii) :=
  map (fun p => hd_error (fragment (snd p))) (children n).

(** [l] lists the keys [k] with [search(k) is not None], each once. *)
Definition lists_found (t : trie) (l : list str) : Prop :=
  NoDup l /\ forall k, In k l <-> search t k <> None.

(** [l] lists the stored keys, each once. *)
Definition lists_stored (t : trie) (l : list str) : Prop :=
  NoDup l /\ forall k, In k l <-> stored t k.

End Trie.

Arguments Node {V} _ _ _ _.
Arguments empty {V}.
Arguments OpDelete {V} k.


(** ** The service of [code-example/app.py]

    The Flask handlers work on one global [trie], seeded with the words of
    [_SEED_WORDS].  A handler is modelled from the point where Flask has
    read the request: [q] and [key] are the strings after
    [.strip().lower()], [limit] is the integer after the [try] block (25
    when [int(limit)] fails), and [value] is [None] here when the body has
    no ["value"] entry.  The JSON body of an answer is the constructor of
    its response type; the trie after the request is returned with it.
    A value that is a key ([body.get("value", key)] and the seeding) is
    [of_key key]. *)

Section Service.
Variable V : Type.
Variable of_key : str -> V.

Definition _SEED_WORDS : list string :=
  [ "algorithm"; "api"; "application"; "array"; "authentication";
    "binary"; "branch"; "buffer"; "build"; "byte";
    "cache"; "callback"; "class"; "client"; "compiler";
    "container"; "cpu"; "database"; "debug"; "deploy";
    "docker"; "endpoint"; "exception"; "flask"; "function";
    "gateway"; "git"; "graph"; "hash"; "heap";
    "index"; "interface"; "json"; "kernel"; "lambda";
    "linked-list"; "load-balancer"; "memory"; "microservice"; "middleware";
    "node"; "object"; "parser"; "pipeline"; "pointer";
    "prefix-tree"; "process"; "queue"; "recursion"; "redis";
    "request"; "response"; "rest"; "router"; "runtime";
    "schema"; "server"; "socket"; "stack"; "stream";
    "thread"; "token"; "tree"; "trie"; "tuple";
    "upstream"; "variable"; "version"; "webhook"; "worker" ]%string.

(** [for word in _SEED_WORDS: trie.insert(word, word)] on [Trie()] *)
Definition seeded : trie V :=
  fold_left (fun t word => insert t (s2l word) (Some (of_key (s2l word))))
            _SEED_WORDS empty.

(** [GET /search] *)
Inductive search_response : Type :=
| SearchMissing
| SearchResult (key : str) (found : bool) (value : pyval V).

Definition search_status (r : search_response) : Z :=
  match r with SearchMissing => 400 | SearchResult _ _ _ => 200 end.

Definition search_handler (t : trie V) (q : str) : search_response :=
  match q with
  | [] => SearchMissing
  | _ :: _ =>
      let result := search t q in
      SearchResult q (match result with Some _ => true | None => false end) result
  end.

(** The loop of [GET /prefix]:
    [for key in ...: matches.append(key); if len(matches) >= limit: break] *)
Fixpoint take_matches (limit : Z) (keys : list str) (matches : list str) : list str :=
  match keys with
  | [] => matches
  | key :: keys' =>
      let matches' := matches ++ [key] in
      if (limit <=? Z.of_nat (length matches'))%Z then matches'
      else take_matches limit keys' matches'
  end.

(** [GET /prefix] *)
Inductive prefix_response : Type :=
| PrefixMissing
| PrefixResult (prefix : str) (count : Z) (matches : list str).

Definition prefix_status (r : prefix_response) : Z :=
  match r with PrefixMissing => 400 | PrefixResult _ _ _ => 200 end.

Definition prefix_handler (t : trie V) (q : str) (limit : Z) : prefix_response :=
  match q with
  | [] => PrefixMissing
  | _ :: _ =>
      let matches := take_matches limit (keys_with_prefix t q) [] in
      PrefixResult q (Z.of_nat (length matches)) matches
  end.

(** [POST /insert] *)
Inductive insert_response : Type :=
| InsertMissing
| InsertTooLong
| Inserted (key : str) (value : pyval V) (trie_size : Z).

Definition insert_status (r : insert_response) : Z :=
  match r with InsertMissing | InsertTooLong => 400 | Inserted _ _ _ => 201 end.

Definition insert_handler (t : trie V) (key : str) (value : option (pyval V))
  : insert_response * trie V :=
  match key with
  | [] => (InsertMissing, t)
  | _ :: _ =>
      if (256 <? length key)%nat then (InsertTooLong, t)
      else
        let v := match value with Some v => v | None => Some (of_key key) end in
        let t' := insert t key v in
        (Inserted key v (len t'), t')
  end.

(** [DELETE /delete] *)
Inductive delete_response : Type :=
| DeleteMissing
| Deleted (key : str) (deleted : bool) (trie_size : Z).

Definition delete_status (r : delete_response) : Z :=
  match r with
  | DeleteMissing => 400
  | Deleted _ deleted _ => if deleted then 200 else 404
  end.

Definition delete_handler (t : trie V) (q : str) : delete_response * trie V :=
  match q with
  | [] => (DeleteMissing, t)
  | _ :: _ =>
      let (deleted, t') := delete t q in
      (Deleted q deleted (len t'), t')
  end.

(** The requests that reach the trie, and the trie after a sequence of
    them, starting from the seeded trie. *)
Inductive request : Type :=
| GetSearch (q : str)
| GetPrefix (q : str) (limit : Z)
| PostInsert (key : str) (value : option (pyval V))
| DeleteKey (q : str).

Definition handle (t : trie V) (r : request) : trie V :=
  match r with
  | GetSearch _ | GetPrefix _ _ => t
  | PostInsert key value => snd (insert_handler t key value)
  | DeleteKey q => snd (delete_handler t q)
  end.

Definition serve (requests : list request) : trie V :=
  fold_left handle requests seeded.

(** The keys that [POST /insert] accepts. *)
Definition key_ok (k : str) : Prop := (1 <= length k <= 256)%nat.

End Service.

Arguments SearchMissing {V}.
Arguments InsertMissing {V}.
Arguments InsertTooLong {V}.
Arguments GetSearch {V} q.
Arguments GetPrefix {V} q limit.
Arguments DeleteKey {V} q.

(** ** The states of the scenarios *)

Section States.
Local Open Scope string_scope.

Definition put (t : trie nat) (k : string) (v : nat) : trie nat :=
  insert t (s2l k) (Some v).

(** [insert("apple", 1); insert("app", 2); insert("application", 3)] *)
Definition apples : trie nat :=
  put (put (put empty "apple" 1) "app" 2) "application" 3.

(** [insert("bat", 1); insert("batch", 2); insert("bath", 3)] *)
Definition bats : trie nat :=
  put (put (put empty "bat" 1) "batch" 2) "bath" 3.

(** [insert("apple", 1); insert("app", 2)] *)
Definition apple_app : trie nat := put (put empty "apple" 1) "app" 2.

(** [insert("a", None)] *)
Definition a_none : trie nat := insert empty (s2l "a") None.
End States.

(** ** Facts about strings *)

Lemma ascii_eqb_refl (a : ascii) : Ascii.eqb a a = true.
Proof. apply Ascii.eqb_eq; reflexivity. Qed.

Lemma match_len_le_fragment (key f : str) : match_len key f <= length f.
Proof.
  revert f; induction key as [|a key IH]; intros [|b f]; simpl; try lia.
  destruct (Ascii.eqb a b); simpl; [specialize (IH f)|]; lia.
Qed.

Lemma match_len_le_key (key f : str) : match_len key f <= length key.
Proof.
  revert f; induction key as [|a key IH]; intros [|b f]; simpl; try lia.
  destruct (Ascii.eqb a b); simpl; [specialize (IH f)|]; lia.
Qed.

Lemma match_len_firstn (key f : str) :
  firstn (match_len key f) key = firstn (match_len key f) f.
Proof.
  revert f; induction key as [|a key IH]; intros [|b f]; simpl; try reflexivity.
  destruct (Ascii.eqb a b) eqn:E; simpl; [|reflexivity].
  apply Ascii.eqb_eq in E; subst; f_equal; apply IH.
Qed.

Lemma match_len_app (f k : str) : match_len (f ++ k) f = length f.
Proof.
  induction f as [|a f IH]; simpl.
  - destruct k; reflexivity.
  - rewrite ascii_eqb_refl, IH; reflexivity.
Qed.

Lemma match_len_full (key f : str) :
  match_len key f = length f -> key = f ++ skipn (length f) key.
Proof.
  intros H.
  rewrite <- (firstn_skipn (length f) key) at 1.
  f_equal. rewrite <- H, match_len_firstn, H. apply firstn_all.
Qed.

Lemma match_len_stop (key f : str) :
  match_len key f < length f -> match_len key f < length key ->
  nth (match_len key f) f zero <> hd zero (skipn (match_len key f) key).
Proof.
  revert f; induction key as [|a key IH]; intros [|b f]; simpl; try lia.
  destruct (Ascii.eqb a b) eqn:E; simpl.
  - intros; apply IH; lia.
  - intros _ _ Heq; subst. rewrite ascii_eqb_refl in E; discriminate.
Qed.

Lemma match_len_pos (c : ascii) (key f : str) :
  match_len (c :: key) (c :: f) = S (match_len key f).
Proof. simpl; rewrite ascii_eqb_refl; reflexivity. Qed.

Lemma startswith_app (key f : str) :
  startswith key f = true <-> key = f ++ skipn (length f) key.
Proof.
  revert key; induction f as [|b f IH]; intros key; simpl.
  - split; reflexivity.
  - destruct key as [|a key]; simpl.
    + split; discriminate.
    + rewrite andb_true_iff, Ascii.eqb_eq, IH. split.
      * intros [-> H]; f_equal; exact H.
      * intros H; injection H as -> H; split; [reflexivity|exact H].
Qed.

Lemma startswith_prefix (f k : str) : startswith (f ++ k) f = true.
Proof.
  apply startswith_app. rewrite skipn_app, skipn_all, Nat.sub_diag; reflexivity.
Qed.

(** ** Facts about dictionaries *)

Section DictFacts.
Variable A : Type.
Implicit Types (d : dict A) (c : ascii) (a : A).

Lemma lookup_with_spec (R : Type) c (f : A -> R) d :
  lookup_with c f d = option_map f (lookup c d).
Proof.
  induction d as [|[c' a'] d IH]; simpl; [reflexivity|].
  destruct (Ascii.eqb c' c); [reflexivity|exact IH].
Qed.

Lemma alter_with_spec (R : Type) c (f : A -> A * R) d :
  alter_with c f d =
  match lookup c d with
  | Some a => Some (update c (fst (f a)) d, snd (f a))
  | None => None
  end.
Proof.
  induction d as [|[c' a'] d IH]; simpl; [reflexivity|].
  destruct (Ascii.eqb c' c).
  - destruct (f a'); reflexivity.
  - rewrite IH; destruct (lookup c d); reflexivity.
Qed.

Lemma lookup_In c d a : lookup c d = Some a -> In (c, a) d.
Proof.
  induction d as [|[c' a'] d IH]; simpl; [discriminate|].
  destruct (Ascii.eqb c' c) eqn:E.
  - apply Ascii.eqb_eq in E; intros [= ->]; left; subst; reflexivity.
  - intros H; right; auto.
Qed.

Lemma lookup_None c d : lookup c d = None <-> ~ In c (map fst d).
Proof.
  induction d as [|[c' a'] d IH]; simpl; [tauto|].
  destruct (Ascii.eqb c' c) eqn:E.
  - apply Ascii.eqb_eq in E; split; [discriminate|tauto].
  - apply Ascii.eqb_neq in E; tauto.
Qed.

Lemma In_lookup c d a : NoDup (map fst d) -> In (c, a) d -> lookup c d = Some a.
Proof.
  induction d as [|[c' a'] d IH]; simpl; [tauto|].
  intros Hnd; inversion Hnd as [|? ? Hni Hnd']; subst.
  intros [[= -> ->]|Hin].
  - rewrite ascii_eqb_refl; reflexivity.
  - destruct (Ascii.eqb c' c) eqn:E; [|auto].
    apply Ascii.eqb_eq in E; subst. exfalso; apply Hni.
    change c with (fst (c, a)); apply in_map; exact Hin.
Qed.

Lemma lookup_update_eq c a d : lookup c (update c a d) = Some a.
Proof.
  induction d as [|[c' a'] d IH]; simpl.
  - rewrite ascii_eqb_refl; reflexivity.
  - destruct (Ascii.eqb c' c) eqn:E; simpl; rewrite E; auto.
Qed.

Lemma lookup_update_ne c c' a d : c <> c' -> lookup c' (update c a d) = lookup c' d.
Proof.
  intros Hne; induction d as [|[c0 a0] d IH]; simpl.
  - apply Ascii.eqb_neq in Hne; rewrite Hne; reflexivity.
  - destruct (Ascii.eqb c0 c) eqn:E; simpl.
    + apply Ascii.eqb_eq in E; subst.
      apply Ascii.eqb_neq in Hne; rewrite Hne; reflexivity.
    + destruct (Ascii.eqb c0 c'); auto.
Qed.

Lemma update_keys_present c a a0 d :
  lookup c d = Some a0 -> map fst (update c a d) = map fst d.
Proof.
  induction d as [|[c' a'] d IH]; simpl; [discriminate|].
  destruct (Ascii.eqb c' c); simpl; [reflexivity|].
  intros H; f_equal; auto.
Qed.

Lemma update_absent c a d : lookup c d = None -> update c a d = d ++ [(c, a)].
Proof.
  induction d as [|[c' a'] d IH]; simpl; [reflexivity|].
  destruct (Ascii.eqb c' c); [discriminate|].
  intros H; f_equal; auto.
Qed.

Lemma update_present c a a0 d :
  lookup c d = Some a0 ->
  exists d1 d2, d = d1 ++ (c, a0) :: d2 /\ update c a d = d1 ++ (c, a) :: d2
                /\ ~ In c (map fst d1).
Proof.
  induction d as [|[c' a'] d IH]; simpl; [discriminate|].
  destruct (Ascii.eqb c' c) eqn:E.
  - apply Ascii.eqb_eq in E; subst; intros [= ->].
    exists [], d; simpl; auto.
  - intros H; destruct (IH H) as (d1 & d2 & -> & -> & Hni).
    exists ((c', a') :: d1), d2; simpl; repeat split.
    apply Ascii.eqb_neq in E; tauto.
Qed.

Lemma remove_present c a0 d :
  lookup c d = Some a0 ->
  exists d1 d2, d = d1 ++ (c, a0) :: d2 /\ remove c d = d1 ++ d2
                /\ ~ In c (map fst d1).
Proof.
  induction d as [|[c' a'] d IH]; simpl; [discriminate|].
  destruct (Ascii.eqb c' c) eqn:E.
  - apply Ascii.eqb_eq in E; subst; intros [= ->].
    exists [], d; simpl; auto.
  - intros H; destruct (IH H) as (d1 & d2 & -> & -> & Hni).
    exists ((c', a') :: d1), d2; simpl; repeat split.
    apply Ascii.eqb_neq in E; tauto.
Qed.

Lemma lookup_remove_ne c c' d : c <> c' -> lookup c' (remove c d) = lookup c' d.
Proof.
  intros Hne; induction d as [|[c0 a0] d IH]; simpl; [reflexivity|].
  destruct (Ascii.eqb c0 c) eqn:E; simpl.
  - apply Ascii.eqb_eq in E; subst.
    apply Ascii.eqb_neq in Hne; rewrite Hne; reflexivity.
  - destruct (Ascii.eqb c0 c'); auto.
Qed.

Lemma lookup_remove_eq c d : NoDup (map fst d) -> lookup c (remove c d) = None.
Proof.
  induction d as [|[c0 a0] d IH]; simpl; [reflexivity|].
  intros Hnd; inversion Hnd; subst.
  destruct (Ascii.eqb c0 c) eqn:E; simpl.
  - apply Ascii.eqb_eq in E; subst. apply lookup_None; assumption.
  - rewrite E; auto.
Qed.
End DictFacts.

(** ** Facts about the order of keys *)

Lemma char_ltb_lt (a b : ascii) : char_ltb a b = true <-> char_lt a b.
Proof. unfold char_ltb, char_lt. apply Nat.ltb_lt. Qed.

Lemma char_ltb_irrefl (a : ascii) : char_ltb a a = false.
Proof. unfold char_ltb. apply Nat.ltb_irrefl. Qed.

Lemma nat_of_ascii_inj (a b : ascii) : nat_of_ascii a = nat_of_ascii b -> a = b.
Proof.
  intros H. rewrite <- (ascii_nat_embedding a), <- (ascii_nat_embedding b), H.
  reflexivity.
Qed.

Lemma str_ltb_irrefl (s : str) : str_ltb s s = false.
Proof.
  induction s as [|a s IH]; simpl; [reflexivity|].
  rewrite char_ltb_irrefl, ascii_eqb_refl. exact IH.
Qed.

Lemma str_lt_trans (s t u : str) : str_lt s t -> str_lt t u -> str_lt s u.
Proof.
  unfold str_lt. revert t u; induction s as [|a s IH]; intros [|b t] [|c u]; simpl;
    try discriminate; try reflexivity.
  destruct (char_ltb a b) eqn:Hab.
  - intros _. apply char_ltb_lt in Hab.
    destruct (char_ltb b c) eqn:Hbc.
    + intros _. apply char_ltb_lt in Hbc.
      assert (H : char_ltb a c = true) by (apply char_ltb_lt; unfold char_lt in *; lia).
      rewrite H; reflexivity.
    + destruct (Ascii.eqb b c) eqn:E; [|discriminate].
      apply Ascii.eqb_eq in E; subst. intros _.
      apply char_ltb_lt in Hab. rewrite Hab; reflexivity.
  - destruct (Ascii.eqb a b) eqn:E; [|discriminate].
    apply Ascii.eqb_eq in E; subst b. intros Hst.
    destruct (char_ltb a c); [reflexivity|].
    destruct (Ascii.eqb a c); [|discriminate].
    apply IH; exact Hst.
Qed.

Lemma str_lt_extend (acc : str) (c : ascii) (r : str) : str_lt acc (acc ++ c :: r).
Proof.
  unfold str_lt. induction acc as [|a acc IH]; simpl; [reflexivity|].
  rewrite char_ltb_irrefl, ascii_eqb_refl. exact IH.
Qed.

Lemma str_lt_diverge (acc : str) (c1 c2 : ascii) (r1 r2 : str) :
  char_lt c1 c2 -> str_lt (acc ++ c1 :: r1) (acc ++ c2 :: r2).
Proof.
  intros H. unfold str_lt. induction acc as [|a acc IH]; simpl.
  - apply char_ltb_lt in H. rewrite H; reflexivity.
  - rewrite char_ltb_irrefl, ascii_eqb_refl. exact IH.
Qed.

Lemma StronglySorted_app (A : Type) (R : A -> A -> Prop) (l1 l2 : list A) :
  StronglySorted R l1 -> StronglySorted R l2 ->
  (forall x y, In x l1 -> In y l2 -> R x y) ->
  StronglySorted R (l1 ++ l2).
Proof.
  intros H1 H2 H. induction H1 as [|a l1 Hs IH Ha]; simpl; [exact H2|].
  constructor.
  - apply IH. intros x y Hx Hy; apply H; [right|]; assumption.
  - apply Forall_app; split; [exact Ha|].
    apply Forall_forall; intros y Hy. apply H; [left; reflexivity|exact Hy].
Qed.

Lemma StronglySorted_rev (A : Type) (R : A -> A -> Prop) (l : list A) :
  StronglySorted R l -> StronglySorted (fun x y => R y x) (rev l).
Proof.
  induction 1 as [|a l Hs IH Ha]; simpl; [constructor|].
  apply StronglySorted_app; [exact IH|repeat constructor|].
  intros x y Hx [<-|[]]. apply in_rev in Hx.
  rewrite Forall_forall in Ha. apply Ha; exact Hx.
Qed.

Lemma StronglySorted_NoDup (A : Type) (R : A -> A -> Prop) (l : list A) :
  (forall x, ~ R x x) -> StronglySorted R l -> NoDup l.
Proof.
  intros Hirr. induction 1 as [|a l Hs IH Ha]; constructor; [|exact IH].
  intros Hin. rewrite Forall_forall in Ha. exact (Hirr a (Ha a Hin)).
Qed.

(** [sorted(keys, reverse=True)] is a descending rearrangement of [keys]. *)
Lemma insert_desc_perm (c : ascii) (l : list ascii) :
  Permutation (insert_desc c l) (c :: l).
Proof.
  induction l as [|d l IH]; simpl; [reflexivity|].
  destruct (char_ltb c d); [|reflexivity].
  rewrite IH. apply perm_swap.
Qed.

Lemma sorted_desc_perm (l : list ascii) : Permutation (sorted_desc l) l.
Proof.
  induction l as [|c l IH]; simpl; [reflexivity|].
  rewrite insert_desc_perm, IH. reflexivity.
Qed.

Lemma insert_desc_sorted (c : ascii) (l : list ascii) :
  StronglySorted char_ge l -> StronglySorted char_ge (insert_desc c l).
Proof.
  induction 1 as [|d l Hs IH Hd]; simpl; [repeat constructor|].
  destruct (char_ltb c d) eqn:E.
  - apply char_ltb_lt in E. constructor; [exact IH|].
    rewrite (Forall_forall (char_ge d)). intros x Hx.
    apply (Permutation_in _ (insert_desc_perm c l)) in Hx.
    destruct Hx as [<-|Hx]; [unfold char_ge, char_lt in *; lia|].
    rewrite Forall_forall in Hd; auto.
  - assert (Hcd : char_ge c d).
    { unfold char_ge. unfold char_ltb in E. apply Nat.ltb_ge in E. exact E. }
    constructor; [constructor; assumption|].
    constructor; [exact Hcd|].
    rewrite Forall_forall in Hd |- *. intros x Hx. specialize (Hd x Hx).
    unfold char_ge in *; lia.
Qed.

Lemma sorted_desc_sorted (l : list ascii) : StronglySorted char_ge (sorted_desc l).
Proof.
  induction l as [|c l IH]; simpl; [constructor|].
  apply insert_desc_sorted; exact IH.
Qed.

Lemma StronglySorted_strict (l : list ascii) :
  NoDup l -> StronglySorted char_ge l -> StronglySorted (fun a b => char_lt b a) l.
Proof.
  intros Hnd Hs. induction Hs as [|a l Hs IH Ha]; [constructor|].
  inversion Hnd as [|? ? Hni Hnd']; subst.
  constructor; [auto|].
  rewrite Forall_forall in Ha |- *. intros x Hx. specialize (Ha x Hx).
  unfold char_ge, char_lt in *.
  destruct (Nat.eq_dec (nat_of_ascii x) (nat_of_ascii a)) as [E|E]; [|lia].
  apply nat_of_ascii_inj in E; subst. contradiction.
Qed.

(** The keys of a dictionary in the order of the traversal. *)
Lemma keys_asc_sorted (l : list ascii) :
  NoDup l -> StronglySorted char_lt (rev (sorted_desc l)).
Proof.
  intros Hnd.
  apply (@StronglySorted_rev _ (fun a b => char_lt b a)).
  apply StronglySorted_strict; [|apply sorted_desc_sorted].
  apply (Permutation_NoDup (Permutation_sym (sorted_desc_perm l))); exact Hnd.
Qed.

Lemma keys_asc_perm (l : list ascii) : Permutation (rev (sorted_desc l)) l.
Proof.
  rewrite <- Permutation_rev. apply sorted_desc_perm.
Qed.

(** ** Induction on nodes and the equations of the walks *)

Section TrieFacts.
Variable V : Type.
Implicit Types (n m child : node V) (cs : dict (node V)) (key k : str)
         (v : pyval V) (t : trie V).

Lemma node_ind' (P : node V -> Prop)
    (H : forall cs e val frag,
        Forall (fun p => P (snd p)) cs -> P (Node cs e val frag))
    (n : node V) : P n.
Proof.
  revert n. fix IH 1. intros [cs e val frag]. apply H.
  induction cs as [|[c ch] cs IHcs]; constructor; [apply IH|exact IHcs].
Qed.

Lemma Forall_lookup (Q : ascii * node V -> Prop) c cs child :
  Forall Q cs -> lookup c cs = Some child -> Q (c, child).
Proof.
  intros HF Hl. apply lookup_In in Hl.
  rewrite Forall_forall in HF. exact (HF _ Hl).
Qed.

(** The induction hypothesis of [node_ind'] at the child under [c]. *)
Ltac child_IH IH Hl IHc :=
  pose proof (@Forall_lookup _ _ _ _ IH Hl) as IHc; cbn [snd] in IHc.

Lemma insert_node_cons cs e val frag char rest v :
  insert_node (Node cs e val frag) (char :: rest) v =
  let key := char :: rest in
  match lookup char cs with
  | None => (Node (update char (Node [] true v key) cs) e val frag, true)
  | Some child =>
      let j := match_len key (fragment child) in
      if (j =? length (fragment child))%nat then
        (Node (update char (fst (insert_node child (skipn j key) v)) cs) e val frag,
         snd (insert_node child (skipn j key) v))
      else
        let child' :=
          Node (children child) (is_end child) (value child)
               (skipn j (fragment child)) in
        let split_children := update (nth j (fragment child) zero) child' [] in
        if (j =? length key)%nat then
          (Node (update char
                   (Node split_children true v (firstn j (fragment child))) cs)
                e val frag, true)
        else
          let remaining := skipn j key in
          let new_leaf := Node [] true v remaining in
          (Node (update char
                   (Node (update (hd zero remaining) new_leaf split_children)
                         false None (firstn j (fragment child))) cs)
                e val frag, true)
  end.
Proof.
  cbv zeta. cbn [insert_node].
  destruct (lookup char cs) as [child|] eqn:Hl; [|reflexivity].
  destruct (_ =? length (fragment child))%nat; [|reflexivity].
  rewrite alter_with_spec, Hl. reflexivity.
Qed.

Lemma find_node_cons cs e val frag char rest :
  find_node (Node cs e val frag) (char :: rest) =
  let key := char :: rest in
  match lookup char cs with
  | None => None
  | Some child =>
      let j := match_len key (fragment child) in
      if (j <? length (fragment child))%nat then
        if (j =? length key)%nat then Some child else None
      else find_node child (skipn j key)
  end.
Proof.
  cbv zeta. cbn [find_node]. rewrite lookup_with_spec.
  destruct (lookup char cs) as [child|]; reflexivity.
Qed.

Lemma delete_node_cons cs e val frag char rest nonroot :
  delete_node (Node cs e val frag) (char :: rest) nonroot =
  let key := char :: rest in
  match lookup char cs with
  | None => None
  | Some child =>
      if startswith key (fragment child) then
        match delete_node child (skipn (length (fragment child)) key) true with
        | None => None
        | Some (true, _) => Some (cleanup nonroot (Node (remove char cs) e val frag))
        | Some (false, child') =>
            Some (false, Node (update char child' cs) e val frag)
        end
      else None
  end.
Proof.
  cbv zeta. cbn [delete_node]. rewrite lookup_with_spec.
  destruct (lookup char cs) as [child|]; [|reflexivity].
  cbn [option_map]. destruct (startswith (char :: rest) (fragment child)); reflexivity.
Qed.

Lemma fragment_insert_node n k v : fragment (fst (insert_node n k v)) = fragment n.
Proof.
  destruct n as [cs e val frag]; destruct k as [|c k]; [reflexivity|].
  rewrite insert_node_cons; cbv zeta.
  destruct (lookup c cs); [|reflexivity].
  destruct (_ =? _)%nat; [reflexivity|].
  destruct (_ =? _)%nat; reflexivity.
Qed.

Lemma insert_node_lands n : forall k v,
  exists m, lands (fst (insert_node n k v)) k m /\ is_end m = true /\ value m = v.
Proof.
  induction n as [cs e val frag IH] using node_ind'; intros k v.
  destruct k as [|c k].
  - eexists; split; [apply lands_here|split; reflexivity].
  - rewrite insert_node_cons; cbv zeta.
    destruct (lookup c cs) as [child|] eqn:Hl.
    + destruct (_ =? length (fragment child))%nat eqn:Hj.
      * apply Nat.eqb_eq in Hj.
        child_IH IH Hl IHc.
        destruct (IHc (skipn (match_len (c :: k) (fragment child)) (c :: k)) v)
          as (m & Hm & He & Hv).
        exists m; split; [|auto].
        eapply lands_step; [apply lookup_update_eq| |exact Hm].
        rewrite fragment_insert_node, Hj. apply match_len_full; exact Hj.
      * apply Nat.eqb_neq in Hj.
        pose proof (match_len_le_fragment (c :: k) (fragment child)) as Hle.
        assert (Hsplit : c :: k =
                  firstn (match_len (c :: k) (fragment child)) (fragment child)
                    ++ skipn (match_len (c :: k) (fragment child)) (c :: k)).
        { rewrite <- match_len_firstn. symmetry; apply firstn_skipn. }
        destruct (_ =? length (c :: k))%nat eqn:Hk.
        -- eexists; split; [|split]; cycle 1; [| |
             eapply lands_step; [apply lookup_update_eq| |]].
           3:{ cbn [fragment]. rewrite Hsplit at 1. reflexivity. }
           3:{ apply Nat.eqb_eq in Hk. rewrite Hk, skipn_all. apply lands_here. }
           all: reflexivity.
        -- apply Nat.eqb_neq in Hk.
           pose proof (match_len_le_key (c :: k) (fragment child)) as Hlk.
           destruct (skipn (match_len (c :: k) (fragment child)) (c :: k))
             as [|r0 rem] eqn:Hrem.
           { exfalso. apply (f_equal (@length _)) in Hrem.
             rewrite length_skipn in Hrem. cbn [length] in Hrem, Hk, Hlk. lia. }
           exists (Node [] true v (r0 :: rem)); split; [|split; reflexivity].
           eapply lands_step; [apply lookup_update_eq| |].
           ++ cbn [fragment]. exact Hsplit.
           ++ eapply lands_step; [cbn [children hd]; apply lookup_update_eq| |apply lands_here].
              cbn [fragment]. rewrite app_nil_r; reflexivity.
    + exists (Node [] true v (c :: k)); split; [|split; reflexivity].
      eapply lands_step; [apply lookup_update_eq| |apply lands_here].
      cbn [fragment]. rewrite app_nil_r; reflexivity.
Qed.

Lemma lands_find_node n k m : lands n k m -> find_node n k = Some m.
Proof.
  induction 1 as [n|n c k child k' m Hl Hk Hlands IH].
  - destruct n; reflexivity.
  - destruct n as [cs e val frag]. rewrite find_node_cons; cbv zeta.
    cbn [children] in Hl. rewrite Hl, Hk, match_len_app.
    rewrite Nat.ltb_irrefl.
    rewrite skipn_app, skipn_all, Nat.sub_diag. exact IH.
Qed.

(** ** The shape of the tree is kept *)

Lemma wf_inv n :
  wf n ->
  NoDup (map fst (children n)) /\
  Forall (fun p => edge (fst p) (snd p) /\ branching (snd p) /\ wf (snd p))
         (children n).
Proof. intros H; inversion H; subst; cbn [children]; auto. Qed.

Lemma wf_child n c child :
  wf n -> lookup c (children n) = Some child ->
  edge c child /\ branching child /\ wf child.
Proof.
  intros H Hl. apply wf_inv in H as [_ HF].
  exact (@Forall_lookup _ _ _ _ HF Hl).
Qed.

Lemma Forall_update (Q : ascii * node V -> Prop) c a cs :
  Forall Q cs -> Q (c, a) -> Forall Q (update c a cs).
Proof.
  intros HF Hq; induction cs as [|[c' a'] cs IH]; simpl.
  - constructor; auto.
  - inversion HF; subst. destruct (Ascii.eqb c' c) eqn:E.
    + apply Ascii.eqb_eq in E; subst; constructor; auto.
    + constructor; auto.
Qed.

Lemma Forall_remove (Q : ascii * node V -> Prop) c cs :
  Forall Q cs -> Forall Q (remove c cs).
Proof.
  intros HF; induction cs as [|[c' a'] cs IH]; simpl; [constructor|].
  inversion HF; subst. destruct (Ascii.eqb c' c); [assumption|].
  constructor; auto.
Qed.

Lemma NoDup_update c (a : node V) cs :
  NoDup (map fst cs) -> NoDup (map fst (update c a cs)).
Proof.
  intros Hnd. destruct (lookup c cs) as [a0|] eqn:Hl.
  - erewrite update_keys_present by eassumption; exact Hnd.
  - rewrite update_absent by exact Hl. rewrite map_app; simpl.
    apply NoDup_app_remove_l with (l := []); simpl.
    apply Permutation_NoDup with (l := c :: map fst cs).
    + apply Permutation_cons_append.
    + constructor; [apply lookup_None; exact Hl|exact Hnd].
Qed.

Lemma remove_keys_incl c cs (x : ascii) :
  In x (map fst (remove (A:=node V) c cs)) -> In x (map fst cs).
Proof.
  induction cs as [|[c' a'] cs IH]; simpl; [tauto|].
  destruct (Ascii.eqb c' c); simpl; tauto.
Qed.

Lemma NoDup_remove_keys c cs :
  NoDup (map fst cs) -> NoDup (map fst (remove (A:=node V) c cs)).
Proof.
  induction cs as [|[c' a'] cs IH]; simpl; [auto|].
  intros Hnd; inversion Hnd; subst.
  destruct (Ascii.eqb c' c); simpl; [assumption|].
  constructor; [|auto]. intros Hin; apply remove_keys_incl in Hin; auto.
Qed.

Lemma length_update_ge c (a : node V) cs : length cs <= length (update c a cs).
Proof.
  induction cs as [|[c' a'] cs IH]; simpl; [lia|].
  destruct (Ascii.eqb c' c); simpl; lia.
Qed.

Lemma length_update_present c (a a0 : node V) cs :
  lookup c cs = Some a0 -> length (update c a cs) = length cs.
Proof.
  intros Hl. destruct (@update_present _ c a a0 cs Hl) as (d1 & d2 & -> & -> & _).
  rewrite !length_app; reflexivity.
Qed.

Lemma hd_error_skipn (j : nat) (f : str) :
  j < length f -> hd_error (skipn j f) = Some (nth j f zero).
Proof.
  revert f; induction j as [|j IH]; intros [|b f]; simpl; try lia; auto.
  intros; apply IH; lia.
Qed.

Lemma hd_error_firstn (j : nat) (f : str) :
  0 < j -> hd_error (firstn j f) = hd_error f.
Proof. destruct j, f; simpl; try lia; reflexivity. Qed.

Lemma match_len_edge (c : ascii) (k f : str) :
  hd_error f = Some c -> 0 < match_len (c :: k) f.
Proof.
  destruct f as [|b f]; simpl; [discriminate|].
  intros [= ->]. rewrite ascii_eqb_refl; lia.
Qed.

(** [insert] keeps the shape. *)
Lemma insert_node_wf n : forall k v,
  wf n ->
  wf (fst (insert_node n k v)) /\
  (branching n -> branching (fst (insert_node n k v))).
Proof.
  induction n as [cs e val frag IH] using node_ind'; intros k v Hwf.
  pose proof (wf_inv Hwf) as [Hnd HF]; cbn [children] in Hnd, HF.
  destruct k as [|c k].
  - split; [constructor; assumption|]. intros _ [=].
  - rewrite insert_node_cons; cbv zeta.
    destruct (lookup c cs) as [child|] eqn:Hl.
    + destruct (@wf_child _ c child Hwf Hl) as (Hedge & Hbr & Hwfc).
      remember (match_len (c :: k) (fragment child)) as j eqn:Ej.
      pose proof (match_len_le_fragment (c :: k) (fragment child)) as Hle.
      pose proof (match_len_le_key (c :: k) (fragment child)) as Hlk.
      pose proof (@match_len_edge c k _ Hedge) as Hpos.
      rewrite <- Ej in Hle, Hlk, Hpos.
      destruct (j =? length (fragment child))%nat eqn:Hj.
      * child_IH IH Hl IHc.
        destruct (IHc (skipn j (c :: k)) v Hwfc) as [Hwf' Hbr'].
        cbn [fst]. split.
        -- constructor; [apply NoDup_update; exact Hnd|].
           apply Forall_update; [exact HF|]. cbn [fst snd].
           split; [|split; auto].
           unfold edge. rewrite fragment_insert_node. exact Hedge.
        -- unfold branching; cbn [is_end children]. intros Hb He.
           erewrite length_update_present by eassumption. auto.
      * apply Nat.eqb_neq in Hj.
        assert (Hchild' : forall x,
                   x = nth j (fragment child) zero ->
                   edge x (Node (children child) (is_end child) (value child)
                                (skipn j (fragment child)))
                   /\ branching (Node (children child) (is_end child) (value child)
                                      (skipn j (fragment child)))
                   /\ wf (Node (children child) (is_end child) (value child)
                               (skipn j (fragment child)))).
        { intros x ->. split; [|split].
          - unfold edge; cbn [fragment]. apply hd_error_skipn; lia.
          - exact Hbr.
          - apply wf_inv in Hwfc as [? ?]. constructor; assumption. }
        assert (Hfirst : hd_error (firstn j (fragment child)) = Some c).
        { rewrite hd_error_firstn by lia. exact Hedge. }
        destruct (j =? length (c :: k))%nat eqn:Hk; cbn [fst].
        -- split.
           ++ constructor; [apply NoDup_update; exact Hnd|].
              apply Forall_update; [exact HF|]. cbn [fst snd].
              split; [exact Hfirst|]. split; [intros [=]|].
              constructor; simpl; [constructor; [tauto|constructor]|].
              constructor; [|constructor]. apply Hchild'; reflexivity.
           ++ unfold branching; cbn [is_end children]. intros Hb He.
              erewrite length_update_present by eassumption. auto.
        -- apply Nat.eqb_neq in Hk.
           pose proof (@match_len_stop (c :: k) (fragment child)) as Hstop.
           rewrite <- Ej in Hstop.
           assert (Hne : nth j (fragment child) zero <> hd zero (skipn j (c :: k)))
             by (apply Hstop; lia).
           destruct (skipn j (c :: k)) as [|r0 rem] eqn:Hrem.
           { exfalso. apply (f_equal (@length _)) in Hrem.
             rewrite length_skipn in Hrem. cbn [length] in Hrem, Hk, Hlk. lia. }
           cbn [hd] in Hne |- *.
           assert (Hkids :
                     update r0 (Node [] true v (r0 :: rem))
                       (update (nth j (fragment child) zero)
                          (Node (children child) (is_end child) (value child)
                                (skipn j (fragment child))) [])
                     = [(nth j (fragment child) zero,
                         Node (children child) (is_end child) (value child)
                              (skipn j (fragment child)));
                        (r0, Node [] true v (r0 :: rem))]).
           { simpl. apply Ascii.eqb_neq in Hne. rewrite Hne. reflexivity. }
           rewrite Hkids. split.
           ++ constructor; [apply NoDup_update; exact Hnd|].
              apply Forall_update; [exact HF|]. cbn [fst snd].
              split; [exact Hfirst|]. split; [intros _; simpl; lia|].
              constructor; simpl.
              ** constructor; [simpl; intros [H|[]]; auto|].
                 constructor; [tauto|constructor].
              ** constructor; [apply Hchild'; reflexivity|].
                 constructor; [|constructor]. cbn [fst snd].
                 split; [reflexivity|]. split; [intros [=]|].
                 constructor; constructor.
           ++ unfold branching; cbn [is_end children]. intros Hb He.
              erewrite length_update_present by eassumption. auto.
    + cbn [fst]. split.
      * constructor; [apply NoDup_update; exact Hnd|].
        apply Forall_update; [exact HF|]. cbn [fst snd].
        split; [reflexivity|]. split; [intros [=]|].
        constructor; constructor.
      * unfold branching; cbn [is_end children]. intros Hb He.
        pose proof (length_update_ge c (Node [] true v (c :: k)) cs). specialize (Hb He). lia.
Qed.

(** [delete] keeps the shape. *)
Lemma merge_wf nonroot n :
  wf n ->
  (nonroot = true -> is_end n = false -> children n <> []) ->
  wf (merge nonroot n) /\
  (nonroot = true -> branching (merge nonroot n)) /\
  (forall c, edge c n -> edge c (merge nonroot n)).
Proof.
  intros Hwf Hne. unfold merge.
  destruct (children n) as [|[c0 only] [|p rest]] eqn:Hcs.
  - split; [exact Hwf|]. split; [|auto].
    intros Hnr He. exfalso. exact (Hne Hnr He eq_refl).
  - destruct (negb (is_end n) && nonroot) eqn:Hc.
    + apply wf_inv in Hwf as [_ HF]. rewrite Hcs in HF.
      inversion HF as [|? ? (_ & Hbr & Hwfo) _]; subst. cbn [snd] in *.
      split; [|split].
      * apply wf_inv in Hwfo as [? ?]. constructor; assumption.
      * intros _. exact Hbr.
      * unfold edge; cbn [fragment]. intros c Hc'.
        destruct (fragment n); [discriminate|exact Hc'].
    + split; [exact Hwf|]. split; [|auto].
      intros -> He. rewrite He in Hc. discriminate.
  - split; [exact Hwf|]. split; [|auto].
    intros _ _. rewrite Hcs; simpl; lia.
Qed.

Lemma cleanup_wf nonroot n b n' :
  wf n -> cleanup nonroot n = (b, n') ->
  if b then children n' = [] /\ is_end n' = false
  else wf n' /\ (nonroot = true -> branching n') /\
       (forall c, edge c n -> edge c n').
Proof.
  intros Hwf. unfold cleanup.
  destruct (children n) as [|p rest] eqn:Hcs.
  - destruct (nonroot && negb (is_end n)) eqn:Hc.
    + intros [= <- <-]. apply andb_true_iff in Hc as [_ Hc].
      apply negb_true_iff in Hc. auto.
    + intros [= <- <-]. apply merge_wf; [exact Hwf|].
      intros -> He. rewrite He in Hc. discriminate.
  - intros [= <- <-]. apply merge_wf; [exact Hwf|].
    intros _ _. rewrite Hcs. discriminate.
Qed.

Lemma delete_node_wf n : forall k nonroot b n',
  wf n -> (nonroot = true -> branching n) ->
  delete_node n k nonroot = Some (b, n') ->
  if b then children n' = [] /\ is_end n' = false
  else wf n' /\ (nonroot = true -> branching n') /\
       (forall c, edge c n -> edge c n').
Proof.
  induction n as [cs e val frag IH] using node_ind'; intros k nonroot b n' Hwf Hbr.
  pose proof (wf_inv Hwf) as [Hnd HF]; cbn [children] in Hnd, HF.
  destruct k as [|c k].
  - cbn [delete_node]. destruct e; [|discriminate].
    intros [= H]. apply cleanup_wf in H; [|constructor; assumption].
    destruct b; exact H.
  - rewrite delete_node_cons; cbv zeta.
    destruct (lookup c cs) as [child|] eqn:Hl; [|discriminate].
    destruct (startswith (c :: k) (fragment child)); [|discriminate].
    destruct (@wf_child _ c child Hwf Hl) as (Hedge & Hbrc & Hwfc).
    child_IH IH Hl IHc.
    destruct (delete_node child (skipn (length (fragment child)) (c :: k)) true)
      as [[[|] child']|] eqn:Hd; [| |discriminate].
    + intros [= H]. apply cleanup_wf in H.
      * destruct b; exact H.
      * constructor; [apply NoDup_remove_keys; exact Hnd|].
        apply Forall_remove; exact HF.
    + intros [= <- <-].
      specialize (IHc _ _ _ _ Hwfc (fun _ => Hbrc) Hd).
      destruct IHc as (Hwf' & Hbr' & Hedge').
      split; [|split].
      * constructor; [apply NoDup_update; exact Hnd|].
        apply Forall_update; [exact HF|]. cbn [fst snd]. auto.
      * intros Hnr. specialize (Hbr Hnr). unfold branching in *.
        cbn [is_end children] in *.
        erewrite length_update_present by eassumption. exact Hbr.
      * auto.
Qed.

(** The prune loop stops at the root: [path] is empty there. *)
Lemma delete_node_root n k b n' :
  delete_node n k false = Some (b, n') -> b = false.
Proof.
  destruct n as [cs e val frag]. destruct k as [|c k].
  - cbn [delete_node]. destruct e; [|discriminate].
    unfold cleanup. cbn [andb children].
    destruct cs; intros [= <- _]; reflexivity.
  - rewrite delete_node_cons; cbv zeta.
    destruct (lookup c cs); [|discriminate].
    destruct (startswith _ _); [|discriminate].
    destruct (delete_node _ _ true) as [[[|] ?]|]; [| |discriminate].
    + unfold cleanup. cbn [andb children].
      destruct (remove c cs); intros [= <- _]; reflexivity.
    + intros [= <- _]; reflexivity.
Qed.

Lemma wf_empty : wf (root (@empty V)).
Proof. constructor; constructor. Qed.

Lemma root_insert t k v : root (insert t k v) = fst (insert_node (root t) k v).
Proof. unfold insert. destruct (insert_node (root t) k v); reflexivity. Qed.

Lemma reachable_wf t : reachable t -> wf (root t).
Proof.
  induction 1 as [|t k v _ IH|t k _ IH].
  - apply wf_empty.
  - rewrite root_insert. apply insert_node_wf; exact IH.
  - unfold delete.
    destruct (delete_node (root t) k false) as [[b r]|] eqn:Hd; [|exact IH].
    cbn [snd root].
    pose proof (delete_node_root _ _ Hd) as Hb.
    subst b.
    apply (@delete_node_wf _ _ _ _ _ IH) in Hd; [apply Hd|discriminate].
Qed.

(** ** Counting terminal nodes *)

Lemma terminals_eq n :
  terminals n = (if is_end n then 1 else 0) + sum_terminals (children n).
Proof. destruct n; reflexivity. Qed.

Lemma sum_terminals_app cs1 cs2 :
  sum_terminals (cs1 ++ cs2) = sum_terminals cs1 + sum_terminals cs2.
Proof. unfold sum_terminals. rewrite map_app, list_sum_app; reflexivity. Qed.

Lemma sum_terminals_update_present c a a0 cs :
  lookup c cs = Some a0 ->
  sum_terminals (update c a cs) + terminals a0 = sum_terminals cs + terminals a.
Proof.
  intros Hl. destruct (@update_present _ c a a0 cs Hl) as (d1 & d2 & -> & -> & _).
  rewrite !sum_terminals_app. unfold sum_terminals; simpl. lia.
Qed.

Lemma sum_terminals_update_absent c a cs :
  lookup c cs = None -> sum_terminals (update c a cs) = sum_terminals cs + terminals a.
Proof.
  intros Hl. rewrite update_absent by exact Hl.
  rewrite sum_terminals_app. unfold sum_terminals; simpl. lia.
Qed.

Lemma sum_terminals_remove c a0 cs :
  lookup c cs = Some a0 ->
  sum_terminals (remove c cs) + terminals a0 = sum_terminals cs.
Proof.
  intros Hl. destruct (@remove_present _ c a0 cs Hl) as (d1 & d2 & -> & -> & _).
  rewrite !sum_terminals_app. unfold sum_terminals; simpl. lia.
Qed.

Lemma sum_terminals_single x (a : node V) :
  sum_terminals (update x a []) = terminals a.
Proof. unfold sum_terminals; simpl; lia. Qed.

Lemma sum_terminals_pair x y (a b : node V) :
  y <> x ->
  sum_terminals (update x a (update y b [])) = terminals a + terminals b.
Proof.
  intros Hne. apply Ascii.eqb_neq in Hne.
  unfold sum_terminals; simpl. rewrite Hne; simpl; lia.
Qed.

(** [self._size += 1] runs exactly when [insert] adds a terminal node. *)
Lemma insert_node_terminals n : forall k v,
  terminals (fst (insert_node n k v)) =
  terminals n + (if snd (insert_node n k v) then 1 else 0).
Proof.
  induction n as [cs e val frag IH] using node_ind'; intros k v.
  destruct k as [|c k].
  - cbn [insert_node fst snd]. rewrite !terminals_eq; cbn [is_end children].
    destruct e; simpl; lia.
  - rewrite insert_node_cons; cbv zeta.
    destruct (lookup c cs) as [child|] eqn:Hl.
    + remember (match_len (c :: k) (fragment child)) as j eqn:Ej.
      pose proof (match_len_le_fragment (c :: k) (fragment child)) as Hle.
      pose proof (match_len_le_key (c :: k) (fragment child)) as Hlk.
      pose proof (@match_len_stop (c :: k) (fragment child)) as Hstop.
      rewrite <- Ej in Hle, Hlk, Hstop.
      destruct (j =? length (fragment child))%nat eqn:Hj.
      * child_IH IH Hl IHc. specialize (IHc (skipn j (c :: k)) v).
        cbn [fst snd]. rewrite !terminals_eq; cbn [is_end children].
        pose proof (@sum_terminals_update_present c
                      (fst (insert_node child (skipn j (c :: k)) v)) child cs Hl).
        lia.
      * assert (Hc : terminals (Node (children child) (is_end child) (value child)
                                     (skipn j (fragment child))) = terminals child)
          by (rewrite !terminals_eq; reflexivity).
        apply Nat.eqb_neq in Hj.
        destruct (j =? length (c :: k))%nat eqn:Hk; cbn [fst snd];
          rewrite !terminals_eq; cbn [is_end children].
        -- match goal with
           | |- context [update c ?a cs] =>
               pose proof (@sum_terminals_update_present c a child cs Hl) as Hs;
               rewrite (terminals_eq a) in Hs; cbn [is_end children] in Hs
           end.
           rewrite sum_terminals_single, Hc in Hs. lia.
        -- match goal with
           | |- context [update c ?a cs] =>
               pose proof (@sum_terminals_update_present c a child cs Hl) as Hs;
               rewrite (terminals_eq a) in Hs; cbn [is_end children] in Hs
           end.
           apply Nat.eqb_neq in Hk.
           rewrite sum_terminals_pair, Hc in Hs by (apply Hstop; lia).
           change (terminals (Node [] true v (skipn j (c :: k)))) with 1 in Hs.
           lia.
    + cbn [fst snd]. rewrite !terminals_eq; cbn [is_end children].
      rewrite sum_terminals_update_absent by exact Hl.
      rewrite terminals_eq; cbn [is_end children]. unfold sum_terminals at 2.
      simpl. lia.
Qed.

Lemma merge_terminals nonroot n : terminals (merge nonroot n) = terminals n.
Proof.
  unfold merge. destruct (children n) as [|[c0 only] [|p rest]] eqn:Hcs; try reflexivity.
  destruct (negb (is_end n) && nonroot) eqn:Hc; [|reflexivity].
  apply andb_true_iff in Hc as [Hc _]. apply negb_true_iff in Hc.
  rewrite !terminals_eq; cbn [is_end children]. rewrite Hc, Hcs.
  unfold sum_terminals at 2; simpl. rewrite (terminals_eq only). lia.
Qed.

Lemma cleanup_terminals nonroot n b n' :
  cleanup nonroot n = (b, n') ->
  terminals n' = terminals n /\ (b = true -> terminals n' = 0).
Proof.
  unfold cleanup. destruct (children n) as [|p rest] eqn:Hcs.
  - destruct (nonroot && negb (is_end n)) eqn:Hc.
    + intros [= <- <-]. split; [reflexivity|]. intros _.
      apply andb_true_iff in Hc as [_ Hc]. apply negb_true_iff in Hc.
      rewrite terminals_eq, Hc, Hcs. reflexivity.
    + intros [= <- <-]. split; [apply merge_terminals|discriminate].
  - intros [= <- <-]. split; [apply merge_terminals|discriminate].
Qed.

(** [delete] removes exactly one terminal node when it succeeds. *)
Lemma delete_node_terminals n : forall k nonroot b n',
  delete_node n k nonroot = Some (b, n') ->
  terminals n' + 1 = terminals n /\ (b = true -> terminals n' = 0).
Proof.
  induction n as [cs e val frag IH] using node_ind'; intros k nonroot b n'.
  destruct k as [|c k].
  - cbn [delete_node]. destruct e; [|discriminate].
    intros [= H]. apply cleanup_terminals in H as [H1 H2].
    split; [|exact H2]. rewrite H1, !terminals_eq; cbn [is_end children]. lia.
  - rewrite delete_node_cons; cbv zeta.
    destruct (lookup c cs) as [child|] eqn:Hl; [|discriminate].
    destruct (startswith (c :: k) (fragment child)); [|discriminate].
    child_IH IH Hl IHc.
    destruct (delete_node child (skipn (length (fragment child)) (c :: k)) true)
      as [[[|] child']|] eqn:Hd; [| |discriminate];
      destruct (IHc _ _ _ _ Hd) as [H1 H2].
    + intros [= H]. apply cleanup_terminals in H as [H3 H4].
      split; [|exact H4]. rewrite H3, !terminals_eq; cbn [is_end children].
      pose proof (@sum_terminals_remove c child cs Hl). specialize (H2 eq_refl). lia.
    + intros [= <- <-]. split; [|discriminate].
      rewrite !terminals_eq; cbn [is_end children].
      pose proof (@sum_terminals_update_present c child' child cs Hl). lia.
Qed.

(** [_size] is the number of terminal nodes. *)
Lemma reachable_size t : reachable t -> size t = Z.of_nat (terminals (root t)).
Proof.
  induction 1 as [|t k v _ IH|t k _ IH].
  - reflexivity.
  - unfold insert. pose proof (insert_node_terminals (root t) k v) as H.
    destruct (insert_node (root t) k v) as [r grew]; cbn [fst snd root size] in *.
    rewrite H, IH. destruct grew; lia.
  - unfold delete.
    destruct (delete_node (root t) k false) as [[b r]|] eqn:Hd; [|exact IH].
    cbn [snd root size]. apply delete_node_terminals in Hd as [H _].
    rewrite IH. lia.
Qed.

(** ** The stack loop of [keys_with_prefix] *)

Lemma In_children_asc n c child :
  In (c, child) (children_asc n) <-> lookup c (children n) = Some child.
Proof.
  unfold children_asc. rewrite in_flat_map. split.
  - intros (ch & _ & Hin). destruct (lookup ch (children n)) eqn:Hl; [|destruct Hin].
    destruct Hin as [[= <- <-]|[]]. exact Hl.
  - intros Hl. exists c. split.
    + apply (Permutation_in _ (Permutation_sym (keys_asc_perm _))).
      apply lookup_In in Hl. change c with (fst (c, child)). apply in_map; exact Hl.
    + rewrite Hl. left; reflexivity.
Qed.

Lemma flat_map_lookup_keys cs0 cs :
  (forall p, In p cs -> lookup (fst p) cs0 = Some (snd p)) ->
  flat_map (fun ch => match lookup ch cs0 with
                      | Some child => [(ch, child)]
                      | None => []
                      end) (map fst cs) = cs.
Proof.
  induction cs as [|[c a] cs IH]; intros H; simpl; [reflexivity|].
  pose proof (H (c, a) (or_introl eq_refl)) as Hc; cbn [fst snd] in Hc.
  rewrite Hc. simpl. f_equal.
  apply IH. intros p Hp; apply H; right; exact Hp.
Qed.

Lemma children_asc_perm n :
  NoDup (map fst (children n)) -> Permutation (children_asc n) (children n).
Proof.
  intros Hnd. unfold children_asc.
  rewrite (Permutation_flat_map _ (keys_asc_perm (map fst (children n)))).
  rewrite flat_map_lookup_keys; [reflexivity|].
  intros [c a] Hp. apply In_lookup; assumption.
Qed.

Lemma children_asc_keys n :
  map fst (children_asc n) = rev (sorted_desc (map fst (children n))).
Proof.
  unfold children_asc.
  assert (H : forall l, incl l (map fst (children n)) ->
            map fst (flat_map (fun ch => match lookup ch (children n) with
                                         | Some child => [(ch, child)]
                                         | None => []
                                         end) l) = l).
  { induction l as [|c l IH]; intros Hincl; simpl; [reflexivity|].
    rewrite map_app, IH by (intros x Hx; apply Hincl; right; exact Hx).
    destruct (lookup c (children n)) eqn:Hl; [reflexivity|].
    exfalso. apply lookup_None in Hl. apply Hl, Hincl. left; reflexivity. }
  apply H. intros x Hx.
  apply (Permutation_in _ (keys_asc_perm _)) in Hx. exact Hx.
Qed.

Lemma children_asc_sorted n :
  NoDup (map fst (children n)) -> StronglySorted char_lt (map fst (children_asc n)).
Proof.
  intros Hnd. rewrite children_asc_keys. apply keys_asc_sorted; exact Hnd.
Qed.

Lemma preorder_eq n acc :
  preorder n acc =
  (if is_end n then [acc] else [])
    ++ flat_map (fun p => preorder (snd p) (acc ++ fragment (snd p))) (children_asc n).
Proof.
  destruct n as [cs e val frag]. cbn [preorder is_end]. f_equal.
  unfold children_asc; cbn [children].
  induction (rev (sorted_desc (map fst cs))) as [|c l IH]; simpl; [reflexivity|].
  rewrite flat_map_app, <- IH, lookup_with_spec. f_equal.
  destruct (lookup c cs); simpl; [rewrite app_nil_r|]; reflexivity.
Qed.

Lemma push_children_eq n acc (stack : list (node V * str)) :
  push_children n acc stack =
  map (fun p => (snd p, acc ++ fragment (snd p))) (children_asc n) ++ stack.
Proof.
  unfold push_children, children_asc.
  generalize (sorted_desc (map fst (children n))) as l.
  intros l; revert stack; induction l as [|c l IH]; intros stack; simpl; [reflexivity|].
  rewrite IH, flat_map_app, map_app, <- app_assoc. f_equal.
  simpl. destruct (lookup c (children n)); reflexivity.
Qed.

Lemma stack_count_app (s1 s2 : list (node V * str)) :
  stack_count (s1 ++ s2) = stack_count s1 + stack_count s2.
Proof. unfold stack_count. rewrite map_app, list_sum_app. reflexivity. Qed.

Lemma node_count_eq n :
  node_count n = S (list_sum (map (fun p => node_count (snd p)) (children n))).
Proof. destruct n; reflexivity. Qed.

Lemma node_count_asc n acc :
  NoDup (map fst (children n)) ->
  node_count n =
  S (stack_count (map (fun p => (snd p, acc ++ fragment (snd p))) (children_asc n))).
Proof.
  intros Hnd. rewrite node_count_eq. f_equal. unfold stack_count.
  rewrite map_map; cbn [fst].
  apply Permutation_list_sum, Permutation_map, Permutation_sym, children_asc_perm.
  exact Hnd.
Qed.

(** With enough fuel the stack loop yields the pre-order of every node on
    the stack, from the top down. *)
Lemma dfs_preorder fuel : forall stack : list (node V * str),
  Forall (fun p => wf (fst p)) stack ->
  stack_count stack <= fuel ->
  dfs fuel stack = flat_map (fun p => preorder (fst p) (snd p)) stack.
Proof.
  induction fuel as [|fuel IH]; intros [|[n acc] stack] Hwf Hc; try reflexivity.
  - exfalso. unfold stack_count in Hc; simpl in Hc. rewrite node_count_eq in Hc. lia.
  - inversion Hwf as [|? ? Hn Hst]; subst. cbn [fst] in Hn.
    pose proof (wf_inv Hn) as [Hnd HF].
    cbn [dfs flat_map fst snd]. rewrite (preorder_eq n acc), <- app_assoc. f_equal.
    rewrite push_children_eq, IH.
    + rewrite flat_map_app. f_equal.
      rewrite flat_map_concat_map, map_map, <- flat_map_concat_map. reflexivity.
    + apply Forall_app; split; [|exact Hst].
      rewrite Forall_map; cbn [fst].
      apply (Permutation_Forall (Permutation_sym (children_asc_perm n Hnd))).
      eapply Forall_impl; [|exact HF]. intros p (_ & _ & H); exact H.
    + change (stack_count ((n, acc) :: stack))
        with (node_count n + stack_count stack) in Hc.
      rewrite (node_count_asc n acc Hnd) in Hc.
      rewrite stack_count_app. lia.
Qed.

Lemma dfs_node n acc : wf n -> dfs (node_count n) [(n, acc)] = preorder n acc.
Proof.
  intros Hwf. rewrite dfs_preorder.
  - simpl. apply app_nil_r.
  - constructor; [exact Hwf|constructor].
  - unfold stack_count; simpl. lia.
Qed.

(** ** What the traversal yields *)

Lemma stored_preorder n k m :
  lands n k m -> is_end m = true -> forall acc, In (acc ++ k) (preorder n acc).
Proof.
  induction 1 as [n|n c k child k' m Hl Hk Hlands IH]; intros He acc;
    rewrite preorder_eq; apply in_or_app.
  - left. rewrite He, app_nil_r. left; reflexivity.
  - right. apply in_flat_map. exists (c, child). split.
    + apply In_children_asc; exact Hl.
    + cbn [snd]. rewrite Hk, app_assoc. apply IH; exact He.
Qed.

Lemma preorder_stored n : forall acc k,
  wf n -> In k (preorder n acc) -> exists k', k = acc ++ k' /\ stored_at n k'.
Proof.
  induction n as [cs e val frag IH] using node_ind'; intros acc k Hwf.
  rewrite preorder_eq; cbn [is_end]. intros Hin. apply in_app_or in Hin as [Hin|Hin].
  - destruct e; [|destruct Hin]. destruct Hin as [<-|[]].
    exists []. split; [symmetry; apply app_nil_r|].
    eexists; split; [apply lands_here|reflexivity].
  - apply in_flat_map in Hin as ([c child] & Hc & Hin). cbn [snd] in Hin.
    apply In_children_asc in Hc. cbn [children] in Hc.
    destruct (@wf_child _ c child Hwf Hc) as (Hedge & _ & Hwfc).
    child_IH IH Hc IHc.
    destruct (IHc _ _ Hwfc Hin) as (k' & -> & m & Hm & He).
    unfold edge in Hedge. destruct (fragment child) as [|c' f] eqn:Hf; [discriminate|].
    injection Hedge as ->.
    exists (c :: f ++ k'). split; [rewrite <- app_assoc; reflexivity|].
    exists m; split; [|exact He].
    eapply lands_step; [exact Hc| |exact Hm]. rewrite Hf; reflexivity.
Qed.

Lemma In_preorder n acc k :
  wf n -> In k (preorder n acc) <-> exists k', k = acc ++ k' /\ stored_at n k'.
Proof.
  intros Hwf; split; [apply preorder_stored; exact Hwf|].
  intros (k' & -> & m & Hm & He). eapply stored_preorder; eassumption.
Qed.

Lemma flat_map_ascending (F : ascii * node V -> list str) (acc : str) es :
  StronglySorted char_lt (map fst es) ->
  (forall p, In p es ->
     ascending (F p) /\ forall k, In k (F p) -> exists r, k = acc ++ fst p :: r) ->
  ascending (flat_map F es).
Proof.
  induction es as [|p es IH]; intros Hs HF; simpl; [constructor|].
  inversion Hs as [|? ? Hs' Hlt]; subst.
  apply StronglySorted_app.
  - apply HF; left; reflexivity.
  - apply IH; [exact Hs'|]. intros q Hq; apply HF; right; exact Hq.
  - intros x y Hx Hy. apply in_flat_map in Hy as (q & Hq & Hy).
    destruct (HF p (or_introl eq_refl)) as [_ Hp].
    destruct (HF q (or_intror Hq)) as [_ Hq'].
    destruct (Hp _ Hx) as (r1 & ->). destruct (Hq' _ Hy) as (r2 & ->).
    apply str_lt_diverge.
    rewrite Forall_forall in Hlt. apply Hlt.
    apply in_map; exact Hq.
Qed.

Lemma preorder_ascending n : forall acc, wf n -> ascending (preorder n acc).
Proof.
  induction n as [cs e val frag IH] using node_ind'; intros acc Hwf.
  pose proof (wf_inv Hwf) as [Hnd _]; cbn [children] in Hnd.
  assert (Hkids : forall p, In p (children_asc (Node cs e val frag)) ->
            ascending (preorder (snd p) (acc ++ fragment (snd p))) /\
            forall k, In k (preorder (snd p) (acc ++ fragment (snd p))) ->
                      exists r, k = acc ++ fst p :: r).
  { intros [c child] Hc. apply In_children_asc in Hc. cbn [children fst snd] in *.
    destruct (@wf_child _ c child Hwf Hc) as (Hedge & _ & Hwfc).
    child_IH IH Hc IHc. split; [apply IHc; exact Hwfc|].
    intros k Hk. apply preorder_stored in Hk as (k' & -> & _); [|exact Hwfc].
    unfold edge in Hedge. destruct (fragment child) as [|c' f]; [discriminate|].
    injection Hedge as ->. exists (f ++ k'). rewrite <- app_assoc. reflexivity. }
  rewrite preorder_eq. apply StronglySorted_app.
  - cbn [is_end]. destruct e; repeat constructor.
  - apply flat_map_ascending with (acc := acc); [|exact Hkids].
    apply children_asc_sorted. exact Hnd.
  - cbn [is_end]. intros x y Hx Hy. destruct e; [|destruct Hx].
    destruct Hx as [<-|[]].
    apply in_flat_map in Hy as (p & Hp & Hy).
    destruct (Hkids p Hp) as [_ H]. destruct (H _ Hy) as (r & ->).
    apply str_lt_extend.
Qed.

Lemma length_preorder n : forall acc, wf n -> length (preorder n acc) = terminals n.
Proof.
  induction n as [cs e val frag IH] using node_ind'; intros acc Hwf.
  pose proof (wf_inv Hwf) as [Hnd HF]; cbn [children] in Hnd, HF.
  rewrite preorder_eq, terminals_eq, length_app, length_flat_map.
  cbn [is_end children]. f_equal; [destruct e; reflexivity|].
  unfold sum_terminals.
  rewrite (Permutation_list_sum
             (Permutation_map _ (children_asc_perm (Node cs e val frag) Hnd))).
  cbn [children]. f_equal. apply map_ext_in. intros [c child] Hin. cbn [snd].
  rewrite Forall_forall in IH, HF.
  apply (IH _ Hin). apply (HF _ Hin).
Qed.

(** ** Stored keys and the walks *)

Lemma walk_cons cs e val frag char rest :
  walk (Node cs e val frag) (char :: rest) =
  let key := char :: rest in
  match lookup char cs with
  | None => None
  | Some child =>
      if startswith key (fragment child) then
        walk child (skipn (length (fragment child)) key)
      else None
  end.
Proof.
  cbv zeta. cbn [walk]. rewrite lookup_with_spec.
  destruct (lookup char cs) as [child|]; reflexivity.
Qed.

Lemma skipn_app_exact (f k : str) : skipn (length f) (f ++ k) = k.
Proof. rewrite skipn_app, skipn_all, Nat.sub_diag. reflexivity. Qed.

Lemma lands_walk n k m : lands n k m -> walk n k = Some m.
Proof.
  induction 1 as [n|n c k child k' m Hl Hk Hlands IH].
  - destruct n; reflexivity.
  - destruct n as [cs e val frag]. rewrite walk_cons; cbv zeta.
    cbn [children] in Hl. rewrite Hl, Hk, startswith_prefix, skipn_app_exact.
    exact IH.
Qed.

Lemma walk_lands n : forall k m, walk n k = Some m -> lands n k m.
Proof.
  induction n as [cs e val frag IH] using node_ind'; intros k m.
  destruct k as [|c k].
  - intros [= <-]. apply lands_here.
  - rewrite walk_cons; cbv zeta.
    destruct (lookup c cs) as [child|] eqn:Hl; [|discriminate].
    destruct (startswith (c :: k) (fragment child)) eqn:Hs; [|discriminate].
    child_IH IH Hl IHc. intros Hw.
    eapply lands_step; [exact Hl| |apply IHc; exact Hw].
    apply startswith_app; exact Hs.
Qed.

Lemma is_stored_spec t k : is_stored t k = true <-> stored t k.
Proof.
  unfold is_stored, stored, stored_at. split.
  - destruct (walk (root t) k) as [m|] eqn:Hw; [|discriminate].
    intros He. exists m. split; [apply walk_lands; exact Hw|exact He].
  - intros (m & Hm & He). rewrite (lands_walk Hm). exact He.
Qed.

Lemma not_stored t k : is_stored t k = false -> ~ stored t k.
Proof.
  intros H Hs. apply is_stored_spec in Hs. rewrite H in Hs. discriminate.
Qed.

Lemma delete_node_stored n : forall k nonroot r,
  delete_node n k nonroot = Some r -> stored_at n k.
Proof.
  induction n as [cs e val frag IH] using node_ind'; intros k nonroot r.
  destruct k as [|c k].
  - cbn [delete_node]. destruct e; [|discriminate]. intros _.
    eexists; split; [apply lands_here|reflexivity].
  - rewrite delete_node_cons; cbv zeta.
    destruct (lookup c cs) as [child|] eqn:Hl; [|discriminate].
    destruct (startswith (c :: k) (fragment child)) eqn:Hs; [|discriminate].
    child_IH IH Hl IHc.
    destruct (delete_node child (skipn (length (fragment child)) (c :: k)) true)
      as [r'|] eqn:Hd; [|discriminate].
    intros _. destruct (IHc _ _ _ Hd) as (m & Hm & He).
    exists m. split; [|exact He].
    eapply lands_step; [exact Hl| |exact Hm].
    apply startswith_app; exact Hs.
Qed.

Lemma stored_delete_node n k m :
  lands n k m -> is_end m = true ->
  forall nonroot, exists r, delete_node n k nonroot = Some r.
Proof.
  induction 1 as [n|n c k child k' m Hl Hk Hlands IH]; intros He nonroot.
  - destruct n as [cs e val frag]. cbn [is_end] in He; subst e.
    cbn [delete_node]. eexists; reflexivity.
  - destruct n as [cs e val frag]. rewrite delete_node_cons; cbv zeta.
    cbn [children] in Hl. rewrite Hl, Hk, startswith_prefix, skipn_app_exact.
    destruct (IH He true) as ([[|] child'] & ->); eexists; reflexivity.
Qed.

Lemma find_node_nil n : find_node n [] = Some n.
Proof. destruct n; reflexivity. Qed.

Lemma iter_preorder t : wf (root t) -> iter t = preorder (root t) [].
Proof.
  intros Hwf. unfold iter, keys_with_prefix. rewrite find_node_nil.
  apply dfs_node; exact Hwf.
Qed.

Lemma In_iter t k : wf (root t) -> In k (iter t) <-> stored t k.
Proof.
  intros Hwf. rewrite iter_preorder by exact Hwf.
  rewrite In_preorder by exact Hwf. unfold stored. split.
  - intros (k' & -> & H); exact H.
  - intros H; exists k; split; [reflexivity|exact H].
Qed.

Lemma str_lt_irrefl (s : str) : ~ str_lt s s.
Proof. unfold str_lt. rewrite str_ltb_irrefl. discriminate. Qed.

Lemma iter_lists_stored t : wf (root t) -> lists_stored t (iter t).
Proof.
  intros Hwf. split; [|intros k; apply In_iter; exact Hwf].
  apply (StronglySorted_NoDup str_lt_irrefl).
  rewrite iter_preorder by exact Hwf. apply preorder_ascending; exact Hwf.
Qed.

Lemma below_wf r m : wf r -> below r m -> branching m /\ wf m.
Proof.
  intros Hwf. induction 1 as [c child Hin|m c child _ IH Hin].
  - apply wf_inv in Hwf as [_ HF]. rewrite Forall_forall in HF.
    apply (HF _ Hin).
  - destruct IH as [_ Hm]. apply wf_inv in Hm as [_ HF].
    rewrite Forall_forall in HF. apply (HF _ Hin).
Qed.

Lemma wf_first_chars n : wf n -> NoDup (first_chars n).
Proof.
  intros Hwf. apply wf_inv in Hwf as [Hnd HF]. unfold first_chars.
  assert (E : map (fun p => hd_error (fragment (snd p))) (children n)
              = map Some (map fst (children n))).
  { rewrite map_map. apply map_ext_in. intros p Hp.
    rewrite Forall_forall in HF. apply (HF p Hp). }
  rewrite E. apply Finite.Injective_map_NoDup; [|exact Hnd].
  intros x y [=]; assumption.
Qed.

Lemma insert_node_grew_stored n : forall k v,
  snd (insert_node n k v) = false -> stored_at n k.
Proof.
  induction n as [cs e val frag IH] using node_ind'; intros k v.
  destruct k as [|c k].
  - cbn [insert_node snd]. intros He. apply negb_false_iff in He; subst e.
    eexists; split; [apply lands_here|reflexivity].
  - rewrite insert_node_cons; cbv zeta.
    destruct (lookup c cs) as [child|] eqn:Hl; [|discriminate].
    destruct (_ =? length (fragment child))%nat eqn:Hj.
    + cbn [snd]. intros Hg. apply Nat.eqb_eq in Hj.
      child_IH IH Hl IHc. destruct (IHc _ _ Hg) as (m & Hm & He).
      exists m; split; [|exact He].
      eapply lands_step; [exact Hl| |exact Hm].
      rewrite Hj. apply match_len_full; exact Hj.
    + destruct (_ =? length (c :: k))%nat; discriminate.
Qed.

Lemma stored_insert_node_grew n k m :
  lands n k m -> is_end m = true -> forall v, snd (insert_node n k v) = false.
Proof.
  induction 1 as [n|n c k child k' m Hl Hk Hlands IH]; intros He v.
  - destruct n as [cs e val frag]. cbn [is_end] in He; subst e. reflexivity.
  - destruct n as [cs e val frag]. rewrite insert_node_cons; cbv zeta.
    cbn [children] in Hl. rewrite Hl, Hk, match_len_app, Nat.eqb_refl.
    cbn [snd]. rewrite skipn_app_exact. apply IH; exact He.
Qed.

(** [self._size += 1] runs in [insert] exactly when the key is new. *)
Lemma len_insert t k v :
  (stored t k -> len (insert t k v) = len t) /\
  (~ stored t k -> len (insert t k v) = (len t + 1)%Z).
Proof.
  unfold len, insert, stored.
  destruct (insert_node (root t) k v) as [r grew] eqn:Hi. cbn [size].
  assert (Hg : snd (insert_node (root t) k v) = grew) by (rewrite Hi; reflexivity).
  split.
  - intros (m & Hm & He). rewrite (stored_insert_node_grew Hm He v) in Hg.
    subst grew; reflexivity.
  - intros Hn. destruct grew; [reflexivity|].
    exfalso. apply Hn. eapply insert_node_grew_stored; exact Hg.
Qed.

Lemma insert_then_search t k v : search (insert t k v) k = v.
Proof.
  unfold search. rewrite root_insert.
  destruct (insert_node_lands (root t) k v) as (m & Hm & He & Hv).
  rewrite (lands_find_node Hm), He. exact Hv.
Qed.

Lemma len_iter t : reachable t -> len t = Z.of_nat (length (iter t)).
Proof.
  intros Hr. pose proof (reachable_wf Hr) as Hwf.
  unfold len. rewrite (reachable_size Hr).
  rewrite iter_preorder, length_preorder by exact Hwf. reflexivity.
Qed.

(** ** What [starts_with] decides *)

Lemma startswith_nil (p : str) : startswith [] p = true -> p = [].
Proof. destruct p; [reflexivity|discriminate]. Qed.

Lemma startswith_match_len (f k' p : str) :
  startswith (f ++ k') p = true -> match_len p f = Nat.min (length p) (length f).
Proof.
  revert p; induction f as [|b f IH]; intros p H.
  - cbn [length]. rewrite Nat.min_0_r. destruct p; reflexivity.
  - destruct p as [|a p]; [reflexivity|].
    simpl in H. apply andb_true_iff in H as [E H].
    apply Ascii.eqb_eq in E; subst b.
    rewrite match_len_pos. cbn [length]. rewrite <- Nat.succ_min_distr.
    f_equal. apply IH; exact H.
Qed.

Lemma startswith_skipn (f k' p : str) :
  startswith (f ++ k') p = true -> length f <= length p ->
  startswith k' (skipn (length f) p) = true.
Proof.
  revert p; induction f as [|b f IH]; intros p H Hle; [exact H|].
  destruct p as [|a p]; [simpl in Hle; lia|].
  simpl in H. apply andb_true_iff in H as [_ H].
  cbn [length skipn]. apply IH; [exact H|]. simpl in Hle; lia.
Qed.

Lemma startswith_app_same (f k p : str) :
  startswith (f ++ k) (f ++ p) = startswith k p.
Proof.
  induction f as [|b f IH]; [reflexivity|].
  simpl. rewrite ascii_eqb_refl. exact IH.
Qed.

(** Below every node that satisfies [branching] there is a stored key. *)
Lemma wf_inhabited m : wf m -> branching m -> exists k, stored_at m k.
Proof.
  induction m as [cs e val frag IH] using node_ind'; intros Hwf Hbr.
  destruct e.
  - exists []. eexists; split; [apply lands_here|reflexivity].
  - specialize (Hbr eq_refl). cbn [children] in Hbr.
    destruct cs as [|[c child] cs]; [simpl in Hbr; lia|].
    assert (Hl : lookup c ((c, child) :: cs) = Some child)
      by (simpl; rewrite ascii_eqb_refl; reflexivity).
    destruct (@wf_child _ c child Hwf Hl) as (Hedge & Hbrc & Hwfc).
    child_IH IH Hl IHc.
    destruct (IHc Hwfc Hbrc) as (k' & m & Hm & He).
    unfold edge in Hedge. destruct (fragment child) as [|c' f] eqn:Hf; [discriminate|].
    injection Hedge as ->.
    exists (c :: f ++ k'), m. split; [|exact He].
    eapply lands_step; [exact Hl| |exact Hm]. rewrite Hf; reflexivity.
Qed.

Lemma stored_at_step n c child k :
  lookup c (children n) = Some child -> edge c child -> stored_at child k ->
  stored_at n (fragment child ++ k).
Proof.
  intros Hl Hedge (m & Hm & He). exists m. split; [|exact He].
  unfold edge in Hedge. destruct (fragment child) as [|c' f] eqn:Hf; [discriminate|].
  injection Hedge as ->. cbn [app].
  eapply lands_step; [exact Hl| |exact Hm]. rewrite Hf; reflexivity.
Qed.

Lemma find_node_stored n : forall p m,
  wf n -> p <> [] -> find_node n p = Some m ->
  exists k, stored_at n k /\ startswith k p = true.
Proof.
  induction n as [cs e val frag IH] using node_ind'; intros p m Hwf Hp.
  destruct p as [|c p]; [contradiction|].
  rewrite find_node_cons; cbv zeta.
  destruct (lookup c cs) as [child|] eqn:Hl; [|discriminate].
  destruct (@wf_child _ c child Hwf Hl) as (Hedge & Hbrc & Hwfc).
  remember (match_len (c :: p) (fragment child)) as j eqn:Ej.
  pose proof (match_len_le_fragment (c :: p) (fragment child)) as Hle.
  rewrite <- Ej in Hle.
  destruct (j <? length (fragment child))%nat eqn:Hj.
  - destruct (j =? length (c :: p))%nat eqn:Hk; [|discriminate].
    intros _. apply Nat.eqb_eq in Hk.
    destruct (wf_inhabited Hwfc Hbrc) as (k' & Hk').
    exists (fragment child ++ k'). split.
    + apply (@stored_at_step (Node cs e val frag) c child k' Hl Hedge Hk').
    + pose proof (match_len_firstn (c :: p) (fragment child)) as Hf.
      rewrite <- Ej, Hk, firstn_all in Hf.
      rewrite <- (firstn_skipn (length (c :: p)) (fragment child)), <- Hf, <- app_assoc.
      apply startswith_prefix.
  - apply Nat.ltb_ge in Hj. assert (Hj' : j = length (fragment child)) by lia.
    pose proof (@match_len_full (c :: p) (fragment child)) as Hfull.
    rewrite <- Ej in Hfull. specialize (Hfull Hj'). rewrite Hj'.
    destruct (skipn (length (fragment child)) (c :: p)) as [|c' p'] eqn:Hrest.
    + intros _. destruct (wf_inhabited Hwfc Hbrc) as (k' & Hk').
      exists (fragment child ++ k'). split.
      * apply (@stored_at_step (Node cs e val frag) c child k' Hl Hedge Hk').
      * rewrite Hfull, app_nil_r. apply startswith_prefix.
    + intros Hfind. child_IH IH Hl IHc.
      destruct (IHc (c' :: p') m Hwfc ltac:(discriminate) Hfind) as (k' & Hk' & Hs).
      exists (fragment child ++ k'). split.
      * apply (@stored_at_step (Node cs e val frag) c child k' Hl Hedge Hk').
      * rewrite Hfull, startswith_app_same. exact Hs.
Qed.

Lemma stored_find_node n k m :
  lands n k m -> forall p, startswith k p = true -> exists m', find_node n p = Some m'.
Proof.
  induction 1 as [n|n c k child k' m Hl Hk Hlands IH]; intros p Hs.
  - apply startswith_nil in Hs; subst p. exists n. apply find_node_nil.
  - destruct p as [|c' p]; [exists n; apply find_node_nil|].
    assert (c' = c).
    { simpl in Hs. apply andb_true_iff in Hs as [E _].
      apply Ascii.eqb_eq in E. symmetry; exact E. }
    subst c'. destruct n as [cs e val frag]. cbn [children] in Hl.
    rewrite find_node_cons; cbv zeta. rewrite Hl.
    rewrite Hk in Hs.
    rewrite (startswith_match_len _ _ _ Hs).
    destruct (Nat.min (length (c :: p)) (length (fragment child))
                <? length (fragment child))%nat eqn:Hj.
    + apply Nat.ltb_lt in Hj.
      assert (Hm : Nat.min (length (c :: p)) (length (fragment child))
                   = length (c :: p)) by lia.
      rewrite Hm, Nat.eqb_refl. eexists; reflexivity.
    + apply Nat.ltb_ge in Hj.
      assert (Hm : Nat.min (length (c :: p)) (length (fragment child))
                   = length (fragment child)) by lia.
      rewrite Hm. apply IH. apply startswith_skipn; [exact Hs|lia].
Qed.

(** In a reachable state [starts_with(p)] is [True] exactly when [p] is
    empty or a prefix of a stored key. *)
Lemma starts_with_spec t p :
  reachable t ->
  starts_with t p = true <->
  p = [] \/ exists k, stored t k /\ startswith k p = true.
Proof.
  intros Hr. pose proof (reachable_wf Hr) as Hwf. unfold starts_with. split.
  - destruct (find_node (root t) p) as [m|] eqn:Hf; [|discriminate]. intros _.
    destruct p as [|c p]; [left; reflexivity|right].
    eapply find_node_stored; [exact Hwf|discriminate|exact Hf].
  - intros [->|(k & (m & Hm & _) & Hs)].
    + rewrite find_node_nil; reflexivity.
    + destruct (stored_find_node Hm _ Hs) as (m' & ->). reflexivity.
Qed.

(** ** [keys_with_prefix] when the prefix ends on a node *)

Lemma lands_wf n k m : wf n -> lands n k m -> wf m.
Proof.
  intros Hwf Hl. induction Hl as [n|n c k child k' m Hl Hk Hlands IH]; [exact Hwf|].
  apply IH. apply (@wf_child _ c child Hwf Hl).
Qed.

Lemma lands_app n k m : lands n k m -> forall k' m', lands m k' m' -> lands n (k ++ k') m'.
Proof.
  induction 1 as [n|n c k child k1 m Hl Hk Hlands IH]; intros k' m' H'; [exact H'|].
  cbn [app]. eapply lands_step; [exact Hl| |apply IH; exact H'].
  change (c :: k ++ k') with ((c :: k) ++ k'). rewrite Hk, app_assoc. reflexivity.
Qed.

Lemma lands_split n p m :
  lands n p m -> forall k' m', lands n (p ++ k') m' -> lands m k' m'.
Proof.
  induction 1 as [n|n c k child k1 m Hl Hk Hlands IH]; intros k' m' H'; [exact H'|].
  cbn [app] in H'. inversion H' as [|? ? ? child' k2 ? Hl' Hk' Hlands']; subst.
  rewrite Hl in Hl'. injection Hl' as <-.
  apply IH. replace (k1 ++ k') with k2; [exact Hlands'|].
  change (c :: k ++ k') with ((c :: k) ++ k') in Hk'.
  rewrite Hk, <- app_assoc in Hk'. apply app_inv_head in Hk'. symmetry; exact Hk'.
Qed.

(** In a reachable state, for a prefix whose walk by whole fragments ends on
    a node, [keys_with_prefix] yields the stored keys that begin with the
    prefix, each once, in ascending order. *)
Lemma keys_with_prefix_on_node t p m :
  reachable t -> lands (root t) p m ->
  ascending (keys_with_prefix t p) /\
  forall k, In k (keys_with_prefix t p) <-> stored t k /\ startswith k p = true.
Proof.
  intros Hr Hp. pose proof (reachable_wf Hr) as Hwf.
  pose proof (lands_wf Hwf Hp) as Hwfm.
  unfold keys_with_prefix. rewrite (lands_find_node Hp), dfs_node by exact Hwfm.
  split; [apply preorder_ascending; exact Hwfm|].
  intros k. rewrite In_preorder by exact Hwfm. split.
  - intros (k' & -> & m' & Hm' & He). split; [|apply startswith_prefix].
    exists m'. split; [|exact He]. eapply lands_app; eassumption.
  - intros [(m' & Hm' & He) Hs]. apply startswith_app in Hs.
    exists (skipn (length p) k). split; [exact Hs|].
    exists m'. split; [|exact He].
    rewrite Hs in Hm'. eapply lands_split; eassumption.
Qed.

(** ** The stored keys after [insert] and [delete] *)

Lemma stored_at_inv n k :
  stored_at n k ->
  (k = [] /\ is_end n = true) \/
  exists c child, lookup c (children n) = Some child /\ through child k.
Proof.
  intros (m & Hm & He). inversion Hm as [|? c k0 child k' ? Hl Hk Hlands]; subst.
  - left; auto.
  - right. exists c, child. split; [exact Hl|].
    exists k'. split; [exact Hk|]. exists m; auto.
Qed.

Lemma through_stored n c child k :
  lookup c (children n) = Some child -> edge c child -> through child k -> stored_at n k.
Proof.
  intros Hl Hedge (k' & -> & Hs). eapply stored_at_step; eassumption.
Qed.

Lemma through_head c child k : edge c child -> through child k -> exists r, k = c :: r.
Proof.
  unfold edge. intros Hedge (k' & -> & _).
  destruct (fragment child) as [|c' f]; [discriminate|].
  injection Hedge as ->. eexists; reflexivity.
Qed.

Lemma stored_at_nil n : stored_at n [] <-> is_end n = true.
Proof.
  split.
  - intros (m & Hm & He). inversion Hm; subst. exact He.
  - intros He. exists n. split; [apply lands_here|exact He].
Qed.

Lemma stored_at_cons n c k :
  wf n ->
  stored_at n (c :: k) <->
  exists child, lookup c (children n) = Some child /\ through child (c :: k).
Proof.
  intros Hwf. split.
  - intros H. apply stored_at_inv in H as [[[=] _]|(c' & child & Hl & Ht)].
    destruct (@wf_child _ c' child Hwf Hl) as (Hedge & _).
    destruct (through_head Hedge Ht) as (r & [= <- _]).
    exists child; auto.
  - intros (child & Hl & Ht).
    destruct (@wf_child _ c child Hwf Hl) as (Hedge & _).
    eapply through_stored; eassumption.
Qed.

(** The keys stored below a node depend on its children and its terminal
    flag only. *)
Lemma lands_reroot cs e val frag e' val' frag' k m :
  lands (Node cs e val frag) k m -> k <> [] -> lands (Node cs e' val' frag') k m.
Proof.
  intros H Hk. inversion H as [|? c k0 child k' ? Hl Hk' Hlands]; subst; [contradiction|].
  eapply lands_step; [exact Hl|exact Hk'|exact Hlands].
Qed.

Lemma stored_at_reroot cs e val frag val' frag' k :
  stored_at (Node cs e val frag) k <-> stored_at (Node cs e val' frag') k.
Proof.
  destruct k as [|c k]; [rewrite !stored_at_nil; reflexivity|].
  split; intros (m & Hm & He); exists m; (split; [|exact He]);
    eapply lands_reroot; try eassumption; discriminate.
Qed.

Lemma stored_at_leaf v frag k : stored_at (Node [] true v frag) k <-> k = [].
Proof.
  split.
  - intros H. apply stored_at_inv in H as [[-> _]|(c & child & Hl & _)]; [reflexivity|].
    discriminate.
  - intros ->. apply stored_at_nil. reflexivity.
Qed.

Lemma through_leaf v frag k : through (Node [] true v frag) k <-> k = frag.
Proof.
  unfold through; cbn [fragment]. split.
  - intros (k' & -> & H). apply stored_at_leaf in H; subst. apply app_nil_r.
  - intros ->. exists []. split; [symmetry; apply app_nil_r|].
    apply stored_at_leaf; reflexivity.
Qed.

Lemma insert_node_children cs e val frag c k v :
  exists X, fst (insert_node (Node cs e val frag) (c :: k) v)
            = Node (update c X cs) e val frag.
Proof.
  rewrite insert_node_cons; cbv zeta.
  destruct (lookup c cs) as [child|]; [|eexists; reflexivity].
  destruct (_ =? _)%nat; [eexists; reflexivity|].
  destruct (_ =? _)%nat; eexists; reflexivity.
Qed.

(** [insert(k, v)] adds [k] to the stored keys and keeps the others. *)
Lemma insert_node_stored n : forall k v k',
  wf n ->
  stored_at (fst (insert_node n k v)) k' <-> k' = k \/ stored_at n k'.
Proof.
  induction n as [cs e val frag IH] using node_ind'; intros k v k' Hwf.
  pose proof (proj1 (insert_node_wf k v Hwf)) as Hwf'.
  destruct k as [|c k].
  - cbn [insert_node fst] in *. destruct k' as [|c' k'].
    + rewrite !stored_at_nil. cbn [is_end]. tauto.
    + rewrite (stored_at_cons _ _ Hwf'), (stored_at_cons _ _ Hwf). cbn [children].
      split; [intros H; right; exact H|intros [[=]|H]; exact H].
  - destruct k' as [|c' k'].
    + rewrite !stored_at_nil.
      assert (He : is_end (fst (insert_node (Node cs e val frag) (c :: k) v)) = e).
      { rewrite insert_node_cons; cbv zeta.
        destruct (lookup c cs); [|reflexivity].
        destruct (_ =? _)%nat; [reflexivity|].
        destruct (_ =? _)%nat; reflexivity. }
      rewrite He. cbn [is_end]. split; [auto|intros [[=]|H]; exact H].
    + rewrite (stored_at_cons _ _ Hwf'), (stored_at_cons _ _ Hwf).
      destruct (Ascii.eqb c c') eqn:Hcc.
      2:{ (* another edge: the child under [c'] is untouched *)
        apply Ascii.eqb_neq in Hcc.
        destruct (insert_node_children cs e val frag c k v) as (X & HX).
        rewrite HX. cbn [children]. rewrite lookup_update_ne by exact Hcc.
        split; [intros H; right; exact H|].
        intros [[= E _]|H]; [symmetry in E; contradiction|exact H]. }
      revert Hwf'. rewrite insert_node_cons; cbv zeta. cbn [children].
      apply Ascii.eqb_eq in Hcc; subst c'.
      destruct (lookup c cs) as [child|] eqn:Hl.
      2:{ (* a new leaf under [c] *)
        cbn [fst children]. intros _. rewrite lookup_update_eq. split.
        - intros (X & [= <-] & Ht). apply through_leaf in Ht. left; exact Ht.
        - intros [->|(child & [=] & _)].
          eexists; split; [reflexivity|]. apply through_leaf; reflexivity. }
      destruct (@wf_child _ c child Hwf Hl) as (Hedge & Hbr & Hwfc).
      remember (match_len (c :: k) (fragment child)) as j eqn:Ej.
      pose proof (match_len_le_fragment (c :: k) (fragment child)) as Hle.
      pose proof (match_len_le_key (c :: k) (fragment child)) as Hlk.
      pose proof (match_len_firstn (c :: k) (fragment child)) as Hfirst.
      rewrite <- Ej in Hle, Hlk, Hfirst.
      assert (Hone : forall X,
                 (through X (c :: k') <-> c :: k' = c :: k \/ through child (c :: k')) ->
                 (exists child0, Some X = Some child0 /\ through child0 (c :: k')) <->
                 c :: k' = c :: k \/
                 exists child0, Some child = Some child0 /\ through child0 (c :: k')).
      { intros X HX. split.
        - intros (X' & [= <-] & Ht). apply HX in Ht as [Ht|Ht]; [left; exact Ht|].
          right. exists child; auto.
        - intros [Hk|(child0 & [= <-] & Ht)];
            (exists X; split; [reflexivity|]; apply HX; auto). }
      destruct (j =? length (fragment child))%nat eqn:Hj.
      * (* the whole fragment matched *)
        apply Nat.eqb_eq in Hj. cbn [fst children]. intros _.
        rewrite lookup_update_eq. apply Hone.
        child_IH IH Hl IHc.
        pose proof (@match_len_full (c :: k) (fragment child)) as Hfull.
        rewrite <- Ej, Hj in Hfull. specialize (Hfull eq_refl).
        unfold through. rewrite fragment_insert_node. split.
        -- intros (k2 & Hk2 & Hs). rewrite Hj in Hs. apply IHc in Hs; [|exact Hwfc].
           destruct Hs as [->|Hs]; [left; rewrite Hk2, <- Hfull; reflexivity|].
           right. exists k2; auto.
        -- intros [Hk|(k2 & Hk2 & Hs)].
           ++ exists (skipn (length (fragment child)) (c :: k)). split.
              ** rewrite Hk. exact Hfull.
              ** rewrite Hj. apply IHc; [exact Hwfc|left; reflexivity].
           ++ exists k2. split; [exact Hk2|]. apply IHc; [exact Hwfc|right; exact Hs].
      * (* the fragment is split after [j] characters *)
        apply Nat.eqb_neq in Hj.
        assert (Hfrag : fragment child
                        = firstn j (fragment child) ++ skipn j (fragment child))
          by (symmetry; apply firstn_skipn).
        assert (Hkey : c :: k = firstn j (fragment child) ++ skipn j (c :: k))
          by (rewrite <- Hfirst; symmetry; apply firstn_skipn).
        assert (Hx : hd_error (skipn j (fragment child))
                     = Some (nth j (fragment child) zero))
          by (apply hd_error_skipn; lia).
        set (child' := Node (children child) (is_end child) (value child)
                            (skipn j (fragment child))) in *.
        assert (Hthrough : forall k2,
                   through child' k2 <->
                   exists k3, k2 = skipn j (fragment child) ++ k3 /\ stored_at child k3).
        { intros k2. unfold through, child'; cbn [fragment].
          destruct child as [ccs ce cval cfrag]; cbn [children is_end value fragment].
          split; intros (k3 & -> & Hs); exists k3; (split; [reflexivity|]);
            eapply stored_at_reroot; exact Hs. }
        destruct (j =? length (c :: k))%nat eqn:Hk; cbn [fst children]; intros Hwf';
          rewrite lookup_update_eq; apply Hone;
          pose proof (@wf_child _ c _ Hwf' (lookup_update_eq _ _ _)) as (_ & _ & HwfS).
        -- (* the key ends at the split *)
           apply Nat.eqb_eq in Hk.
           assert (Hkey' : c :: k = firstn j (fragment child)).
           { rewrite <- Hfirst, Hk. symmetry. apply firstn_all. }
           unfold through at 1; cbn [fragment]. split.
           ++ intros (k2 & Hk2 & Hs). destruct k2 as [|c2 k2].
              ** left. rewrite Hk2, app_nil_r. symmetry; exact Hkey'.
              ** right. apply (stored_at_cons _ _ HwfS) in Hs as (X & HlX & Ht).
                 cbn [children update] in HlX. simpl in HlX.
                 destruct (Ascii.eqb _ c2); [|discriminate]. injection HlX as <-.
                 apply Hthrough in Ht as (k3 & Hk3 & Hs3).
                 exists k3. split; [|exact Hs3].
                 rewrite Hk2, Hk3, app_assoc, <- Hfrag. reflexivity.
           ++ intros [Hkk|(k3 & Hk3 & Hs3)].
              ** exists []. split; [rewrite app_nil_r, Hkk; exact Hkey'|].
                 apply stored_at_nil; reflexivity.
              ** exists (skipn j (fragment child) ++ k3). split.
                 { rewrite Hk3, Hfrag at 1. rewrite <- app_assoc. reflexivity. }
                 eapply through_stored with (child := child').
                 { cbn [children]. apply lookup_update_eq. }
                 { exact Hx. }
                 { apply Hthrough. exists k3; auto. }
        -- (* the rest of the key goes to a new leaf *)
           apply Nat.eqb_neq in Hk.
           pose proof (@match_len_stop (c :: k) (fragment child)) as Hstop.
           rewrite <- Ej in Hstop.
           assert (Hne : nth j (fragment child) zero <> hd zero (skipn j (c :: k)))
             by (apply Hstop; lia).
           destruct (skipn j (c :: k)) as [|r0 rem] eqn:Hrem.
           { exfalso. apply (f_equal (@length _)) in Hrem.
             rewrite length_skipn in Hrem. cbn [length] in Hrem, Hk, Hlk. lia. }
           cbn [hd] in Hne, HwfS |- *.
           unfold through at 1; cbn [fragment]. split.
           ++ intros (k2 & Hk2 & Hs). destruct k2 as [|c2 k2].
              ** apply stored_at_nil in Hs. discriminate.
              ** apply (stored_at_cons _ _ HwfS) in Hs as (X & HlX & Ht).
                 cbn [children] in HlX.
                 destruct (Ascii.eqb r0 c2) eqn:Hr.
                 --- apply Ascii.eqb_eq in Hr; subst c2.
                     rewrite lookup_update_eq in HlX. injection HlX as <-.
                     apply through_leaf in Ht. left. rewrite Hk2, Ht. symmetry; exact Hkey.
                 --- apply Ascii.eqb_neq in Hr.
                     rewrite lookup_update_ne in HlX by exact Hr.
                     simpl in HlX. destruct (Ascii.eqb _ c2); [|discriminate].
                     injection HlX as <-.
                     apply Hthrough in Ht as (k3 & Hk3 & Hs3).
                     right. exists k3. split; [|exact Hs3].
                     rewrite Hk2, Hk3, app_assoc, <- Hfrag. reflexivity.
           ++ intros [Hkk|(k3 & Hk3 & Hs3)].
              ** exists (r0 :: rem). split; [rewrite Hkk; exact Hkey|].
                 eapply through_stored with (child := Node [] true v (r0 :: rem)).
                 { cbn [children]. apply lookup_update_eq. }
                 { reflexivity. }
                 { apply through_leaf; reflexivity. }
              ** exists (skipn j (fragment child) ++ k3). split.
                 { rewrite Hk3, Hfrag at 1. rewrite <- app_assoc. reflexivity. }
                 eapply through_stored with (child := child').
                 { cbn [children]. rewrite lookup_update_ne by (intros E; apply Hne; symmetry; exact E).
                   apply lookup_update_eq. }
                 { exact Hx. }
                 { apply Hthrough. exists k3; auto. }
Qed.

Lemma str_eq_dec (k k' : str) : {k = k'} + {k <> k'}.
Proof. apply list_eq_dec, ascii_dec. Qed.

Lemma through_app n f k : fragment n = f -> through n (f ++ k) <-> stored_at n k.
Proof.
  intros <-. unfold through. split.
  - intros (k' & Hk & Hs). apply app_inv_head in Hk; subst. exact Hs.
  - intros Hs. exists k; auto.
Qed.

(** The merge step keeps the keys stored below the edge to the node. *)
Lemma merge_through nonroot n k :
  wf n -> through (merge nonroot n) k <-> through n k.
Proof.
  intros Hwf. unfold merge.
  destruct (children n) as [|[c0 only] [|p rest]] eqn:Hcs; try reflexivity.
  destruct (negb (is_end n) && nonroot) eqn:Hc; [|reflexivity].
  apply andb_true_iff in Hc as [Hc _]. apply negb_true_iff in Hc.
  assert (Hl : lookup c0 (children n) = Some only)
    by (rewrite Hcs; simpl; rewrite ascii_eqb_refl; reflexivity).
  destruct (@wf_child _ c0 only Hwf Hl) as (Hedge & _ & _).
  assert (Hn : forall k', stored_at n k' <-> through only k').
  { intros k'. split.
    - intros H. apply stored_at_inv in H as [[_ He]|(c & child & Hl' & Ht)].
      + rewrite Hc in He; discriminate.
      + rewrite Hcs in Hl'. simpl in Hl'.
        destruct (Ascii.eqb c0 c); [|discriminate]. injection Hl' as <-. exact Ht.
    - intros Ht. eapply through_stored; eassumption. }
  assert (Hm : forall k',
             stored_at (Node (children only) (is_end only) (value only)
                             (fragment n ++ fragment only)) k'
             <-> stored_at only k').
  { intros k'. destruct only as [ocs oe oval ofrag]. apply stored_at_reroot. }
  unfold through at 1 2; cbn [fragment]. split.
  - intros (k' & -> & Hs). apply Hm in Hs.
    exists (fragment only ++ k'). split; [symmetry; apply app_assoc|].
    apply Hn. exists k'; auto.
  - intros (k' & -> & Hs). apply Hn in Hs as (k3 & -> & Hs).
    exists k3. split; [apply app_assoc|]. apply Hm; exact Hs.
Qed.

Lemma merge_root n : merge false n = n.
Proof.
  unfold merge. destruct (children n) as [|[c0 only] [|p rest]]; try reflexivity.
  rewrite andb_false_r. reflexivity.
Qed.

Lemma cleanup_through nonroot n b n' :
  wf n -> cleanup nonroot n = (b, n') ->
  if b then forall k, ~ stored_at n k
  else (forall k, through n' k <-> through n k) /\ (nonroot = false -> n' = n).
Proof.
  intros Hwf. unfold cleanup.
  assert (Hm : (forall k, through (merge nonroot n) k <-> through n k) /\
               (nonroot = false -> merge nonroot n = n)).
  { split; [intros k; apply merge_through; exact Hwf|intros ->; apply merge_root]. }
  destruct (children n) as [|p rest] eqn:Hcs; [|intros [= <- <-]; exact Hm].
  destruct (nonroot && negb (is_end n)) eqn:Hc; [|intros [= <- <-]; exact Hm].
  intros [= <- <-]. apply andb_true_iff in Hc as [_ Hc]. apply negb_true_iff in Hc.
  intros k H. apply stored_at_inv in H as [[_ He]|(c & child & Hl & _)].
  - rewrite Hc in He; discriminate.
  - rewrite Hcs in Hl; discriminate.
Qed.

(** The end of [delete] at a node [n]: [n1] is [n] without the key [k],
    and the prune and merge steps run on [n1]. *)
Lemma cleanup_spec nonroot n n1 k b n' :
  wf n1 -> fragment n1 = fragment n -> stored_at n k ->
  (forall k', stored_at n1 k' <-> stored_at n k' /\ k' <> k) ->
  cleanup nonroot n1 = (b, n') ->
  if b then forall k', stored_at n k' <-> k' = k
  else (forall k', through n' k' <-> through n k' /\ k' <> fragment n ++ k) /\
       (nonroot = false -> fragment n' = fragment n).
Proof.
  intros Hwf1 Hfrag Hk H1 Hc. apply cleanup_through in Hc; [|exact Hwf1].
  destruct b.
  - intros k'. split; [|intros ->; exact Hk].
    intros Hs. destruct (str_eq_dec k' k) as [E|E]; [exact E|].
    exfalso. apply (Hc k'). apply H1. auto.
  - destruct Hc as [Ht Hroot]. split; [|intros Hnr; rewrite (Hroot Hnr); exact Hfrag].
    intros k'. rewrite Ht. unfold through. rewrite Hfrag. split.
    + intros (k2 & -> & Hs). apply H1 in Hs as [Hs Hne]. split.
      * exists k2; auto.
      * intros E. apply app_inv_head in E. contradiction.
    + intros [(k2 & -> & Hs) Hne]. exists k2. split; [reflexivity|].
      apply H1. split; [exact Hs|]. intros ->. apply Hne; reflexivity.
Qed.

(** [delete(k)], when it succeeds, removes [k] from the stored keys and
    keeps the others. *)
Lemma delete_node_spec n : forall k nonroot b n',
  wf n -> delete_node n k nonroot = Some (b, n') ->
  if b then forall k', stored_at n k' <-> k' = k
  else (forall k', through n' k' <-> through n k' /\ k' <> fragment n ++ k) /\
       (nonroot = false -> fragment n' = fragment n).
Proof.
  induction n as [cs e val frag IH] using node_ind'; intros k nonroot b n' Hwf Hd.
  pose proof (delete_node_stored _ _ _ Hd) as Hstored.
  pose proof (wf_inv Hwf) as [Hnd HF]; cbn [children] in Hnd, HF.
  destruct k as [|c k].
  - cbn [delete_node] in Hd. destruct e; [|discriminate]. injection Hd as Hd.
    eapply cleanup_spec; [| |exact Hstored| |exact Hd].
    + constructor; assumption.
    + reflexivity.
    + intros [|c' k'].
      * rewrite !stored_at_nil. cbn [is_end]. split; [discriminate|tauto].
      * split.
        -- intros (m & Hm & He). split; [|discriminate].
           exists m. split; [|exact He]. eapply lands_reroot; [exact Hm|discriminate].
        -- intros [(m & Hm & He) _].
           exists m. split; [|exact He]. eapply lands_reroot; [exact Hm|discriminate].
  - rewrite delete_node_cons in Hd; cbv zeta in Hd.
    destruct (lookup c cs) as [child|] eqn:Hl; [|discriminate].
    destruct (startswith (c :: k) (fragment child)) eqn:Hs; [|discriminate].
    apply startswith_app in Hs.
    destruct (@wf_child _ c child Hwf Hl) as (Hedge & Hbrc & Hwfc).
    child_IH IH Hl IHc.
    remember (skipn (length (fragment child)) (c :: k)) as kc eqn:Ekc.
    destruct (delete_node child kc true) as [[bc child']|] eqn:Hdc; [|discriminate].
    specialize (IHc _ _ _ _ Hwfc Hdc).
    pose proof (@delete_node_wf child kc true bc child' Hwfc (fun _ => Hbrc) Hdc) as Hwfc'.
    (* the keys below [n] that do not begin with [c] *)
    assert (Hother : forall cs1 k',
               wf (Node cs1 e val frag) ->
               (forall c', c' <> c -> lookup c' cs1 = lookup c' cs) ->
               hd_error k' <> Some c ->
               stored_at (Node cs1 e val frag) k' <-> stored_at (Node cs e val frag) k').
    { intros cs1 [|c' k'] Hwf1 Hlk Hhd.
      - rewrite !stored_at_nil. reflexivity.
      - rewrite (stored_at_cons _ _ Hwf1), (stored_at_cons _ _ Hwf). cbn [children].
        rewrite Hlk; [reflexivity|]. intros ->. apply Hhd; reflexivity. }
    assert (Hhead : forall k', hd_error k' <> Some c -> k' <> c :: k)
      by (intros k' Hhd ->; apply Hhd; reflexivity).
    assert (Hn : forall r,
               stored_at (Node cs e val frag) (c :: r) <-> through child (c :: r)).
    { intros r. rewrite (stored_at_cons _ _ Hwf). cbn [children]. rewrite Hl. split.
      - intros (child0 & [= <-] & Ht); exact Ht.
      - intros Ht; exists child; auto. }
    destruct bc.
    + (* the child is pruned *)
      injection Hd as Hd.
      assert (Hwf1 : wf (Node (remove c cs) e val frag)).
      { constructor; [apply NoDup_remove_keys; exact Hnd|apply Forall_remove; exact HF]. }
      eapply cleanup_spec; [exact Hwf1| |exact Hstored| |exact Hd]; [reflexivity|].
      intros k'. destruct (hd_error k') as [c'|] eqn:Hhd.
      2:{ destruct k'; [|discriminate].
          rewrite (Hother (remove c cs) []); [|exact Hwf1| |discriminate].
          - split; [intros H; split; [exact H|discriminate]|tauto].
          - intros c' Hc'. apply lookup_remove_ne. auto. }
      destruct (Ascii.eqb c' c) eqn:Hcc.
      * apply Ascii.eqb_eq in Hcc; subst c'.
        destruct k' as [|c0 r]; [discriminate|]. injection Hhd as ->.
        rewrite (stored_at_cons _ _ Hwf1), Hn. cbn [children].
        rewrite lookup_remove_eq by exact Hnd. split.
        -- intros (child0 & [=] & _).
        -- intros [(k2 & Hk2 & Hs2) Hne]. exfalso. apply Hne.
           apply IHc in Hs2; subst k2. rewrite Hk2, Hs. reflexivity.
      * apply Ascii.eqb_neq in Hcc.
        assert (Hhd' : hd_error k' <> Some c) by (rewrite Hhd; intros [= E]; auto).
        rewrite (Hother (remove c cs) k'); [|exact Hwf1| |exact Hhd'].
        -- split; [intros H; split; [exact H|apply Hhead; exact Hhd']|tauto].
        -- intros c1 Hc1. apply lookup_remove_ne. auto.
    + (* the child is kept *)
      injection Hd as <- <-. destruct Hwfc' as (Hwf' & Hbr' & Hedge').
      destruct IHc as [IHc _].
      assert (Hwf1 : wf (Node (update c child' cs) e val frag)).
      { constructor; [apply NoDup_update; exact Hnd|].
        apply Forall_update; [exact HF|]. cbn [fst snd]. auto. }
      split; [|reflexivity].
      assert (H1 : forall k',
                 stored_at (Node (update c child' cs) e val frag) k' <->
                 stored_at (Node cs e val frag) k' /\ k' <> c :: k).
      { intros k'. destruct (hd_error k') as [c'|] eqn:Hhd.
        2:{ destruct k'; [|discriminate].
            rewrite (Hother (update c child' cs) []); [|exact Hwf1| |discriminate].
            - split; [intros H; split; [exact H|discriminate]|tauto].
            - intros c' Hc'. apply lookup_update_ne. auto. }
        destruct (Ascii.eqb c' c) eqn:Hcc.
        * apply Ascii.eqb_eq in Hcc; subst c'.
          destruct k' as [|c0 r]; [discriminate|]. injection Hhd as ->.
          rewrite (stored_at_cons _ _ Hwf1), Hn. cbn [children].
          rewrite lookup_update_eq. rewrite Hs. rewrite <- IHc. split.
          -- intros (child0 & [= <-] & Ht); exact Ht.
          -- intros Ht; exists child'; auto.
        * apply Ascii.eqb_neq in Hcc.
          assert (Hhd' : hd_error k' <> Some c) by (rewrite Hhd; intros [= E]; auto).
          rewrite (Hother (update c child' cs) k'); [|exact Hwf1| |exact Hhd'].
          -- split; [intros H; split; [exact H|apply Hhead; exact Hhd']|tauto].
          -- intros c1 Hc1. apply lookup_update_ne. auto. }
      intros k'. unfold through; cbn [fragment]. split.
      * intros (k2 & -> & Hs2). apply H1 in Hs2 as [Hs2 Hne]. split.
        -- exists k2; auto.
        -- intros E. apply app_inv_head in E. contradiction.
      * intros [(k2 & -> & Hs2) Hne]. exists k2. split; [reflexivity|].
        apply H1. split; [exact Hs2|]. intros ->. apply Hne; reflexivity.
Qed.

(** In a reachable state: the stored keys after [insert(k, v)] and after
    [delete(k)]. *)
Lemma stored_insert t k v k' :
  reachable t -> stored (insert t k v) k' <-> k' = k \/ stored t k'.
Proof.
  intros Hr. unfold stored. rewrite root_insert.
  apply insert_node_stored. apply reachable_wf; exact Hr.
Qed.

Lemma stored_delete t k k' :
  reachable t -> stored (snd (delete t k)) k' <-> stored t k' /\ k' <> k.
Proof.
  intros Hr. pose proof (reachable_wf Hr) as Hwf. unfold stored, delete.
  destruct (delete_node (root t) k false) as [[b r]|] eqn:Hd; cbn [snd root].
  - pose proof (delete_node_root _ _ Hd) as ->.
    destruct (delete_node_spec _ _ Hwf Hd) as [H Hfrag].
    specialize (Hfrag eq_refl). specialize (H (fragment (root t) ++ k')).
    rewrite <- Hfrag in H at 1.
    rewrite !through_app in H by reflexivity.
    rewrite H. split; intros [Hs Hne]; (split; [exact Hs|]).
    + intros ->. apply Hne; reflexivity.
    + intros E. apply app_inv_head in E. contradiction.
  - split; [|tauto]. intros Hs. split; [exact Hs|]. intros ->.
    destruct Hs as (m & Hm & He).
    destruct (stored_delete_node Hm He false) as (r & Hr'). congruence.
Qed.

(** ** The claims *)

(** C3, as amended: in every state reached from the empty trie by calls of
    [insert] and [delete], [size()] is the number of stored keys, the keys
    whose walk by whole fragments ends on a terminal node; these are the
    keys that [keys_with_prefix("")] yields, each once. *)
Theorem size_counts_stored t :
  reachable t ->
  lists_stored t (keys_with_prefix t []) /\
  len t = Z.of_nat (length (keys_with_prefix t [])).
Proof.
  intros Hr. pose proof (reachable_wf Hr) as Hwf.
  split; [apply iter_lists_stored; exact Hwf|].
  apply len_iter; exact Hr.
Qed.

(** C5: [delete(k)] on a key that is not stored (its walk by whole
    fragments fails or ends on a node that is not terminal) returns
    [False] and leaves the tree and [size()] as they were. *)
Theorem delete_absent t k :
  ~ stored t k ->
  fst (delete t k) = false /\ snd (delete t k) = t /\
  len (snd (delete t k)) = len t.
Proof.
  intros Hn. unfold delete.
  destruct (delete_node (root t) k false) as [[b r]|] eqn:Hd.
  - exfalso. apply Hn. eapply delete_node_stored; exact Hd.
  - repeat split.
Qed.

(** C6: for every tree, key [k] and value [v], after [insert(k, v)],
    [search(k)] returns [v]. *)
Theorem search_insert t k v : search (insert t k v) k = v.
Proof. apply insert_then_search. Qed.

(** C7: in every reachable state [keys_with_prefix("")] yields the stored
    keys, each exactly once, in strictly ascending lexicographic order. *)
Theorem keys_sorted t :
  reachable t ->
  ascending (keys_with_prefix t []) /\ lists_stored t (keys_with_prefix t []).
Proof.
  intros Hr. pose proof (reachable_wf Hr) as Hwf.
  split; [|apply iter_lists_stored; exact Hwf].
  change (keys_with_prefix t []) with (iter t).
  rewrite iter_preorder by exact Hwf. apply preorder_ascending; exact Hwf.
Qed.

(** C8: in every reachable state, at every node the edges to the children
    begin with pairwise distinct characters, and every node other than the
    root that is not terminal has at least two children. *)
Theorem reachable_shape t :
  reachable t ->
  (forall m, m = root t \/ below (root t) m -> NoDup (first_chars m)) /\
  (forall m, below (root t) m -> is_end m = false -> 2 <= length (children m)).
Proof.
  intros Hr. pose proof (reachable_wf Hr) as Hwf. split.
  - intros m [->|Hm]; apply wf_first_chars; [exact Hwf|].
    apply (below_wf Hwf Hm).
  - intros m Hm. apply (below_wf Hwf Hm).
Qed.

(** C10: after [insert(k, None)] in a reachable state, [search(k)] returns
    [None] and [k in trie] is [False], although [k] is a stored key:
    [keys_with_prefix("")] yields it and [size()] counts it. *)
Theorem none_value_hidden t k :
  reachable t ->
  let t' := insert t k None in
  search t' k = None /\ contains t' k = false /\
  In k (keys_with_prefix t' []) /\
  len t' = Z.of_nat (length (keys_with_prefix t' [])) /\
  len t' = (if is_stored t k then len t else len t + 1)%Z.
Proof.
  intros Hr t'.
  assert (Hr' : reachable t') by (apply reach_insert; exact Hr).
  assert (Hs : search t' k = None) by apply insert_then_search.
  split; [exact Hs|]. split; [unfold contains; rewrite Hs; reflexivity|].
  split; [|split].
  - apply In_iter; [apply reachable_wf; exact Hr'|].
    unfold stored, t'. rewrite root_insert.
    destruct (insert_node_lands (root t) k None) as (m & Hm & He & _).
    exists m; auto.
  - apply len_iter; exact Hr'.
  - destruct (is_stored t k) eqn:Hk.
    + apply len_insert, is_stored_spec; exact Hk.
    + apply len_insert, not_stored; exact Hk.
Qed.

(** ** More about [insert], [delete] and the enumeration *)

Lemma find_node_inner n : forall p m,
  wf n -> p <> [] -> find_node n p = Some m -> branching m /\ wf m.
Proof.
  induction n as [cs e val frag IH] using node_ind'; intros p m Hwf Hp.
  destruct p as [|c p]; [contradiction|].
  rewrite find_node_cons; cbv zeta.
  destruct (lookup c cs) as [child|] eqn:Hl; [|discriminate].
  destruct (@wf_child _ c child Hwf Hl) as (Hedge & Hbrc & Hwfc).
  destruct (_ <? _)%nat.
  - destruct (_ =? _)%nat; [|discriminate]. intros [= <-]. auto.
  - destruct (skipn _ (c :: p)) as [|c' p'] eqn:Hrest.
    + rewrite find_node_nil. intros [= <-]. auto.
    + child_IH IH Hl IHc. apply IHc; [exact Hwfc|discriminate].
Qed.

Lemma find_node_wf n p m : wf n -> find_node n p = Some m -> wf m.
Proof.
  intros Hwf. destruct p as [|c p].
  - rewrite find_node_nil. intros [= <-]. exact Hwf.
  - intros H. apply (@find_node_inner n (c :: p) m Hwf ltac:(discriminate) H).
Qed.

Lemma preorder_inhabited m acc : wf m -> branching m -> preorder m acc <> [].
Proof.
  intros Hwf Hbr. destruct (wf_inhabited Hwf Hbr) as (k & m' & Hm' & He).
  pose proof (stored_preorder Hm' He acc) as Hin.
  intros E. rewrite E in Hin. destruct Hin.
Qed.

Lemma len_insert_eq t k v :
  len (insert t k v) = (if is_stored t k then len t else len t + 1)%Z.
Proof.
  destruct (is_stored t k) eqn:Hk.
  - apply len_insert, is_stored_spec; exact Hk.
  - apply len_insert, not_stored; exact Hk.
Qed.

Lemma is_stored_insert t k v : is_stored (insert t k v) k = true.
Proof.
  apply is_stored_spec. unfold stored. rewrite root_insert.
  destruct (insert_node_lands (root t) k v) as (m & Hm & He & _).
  exists m; auto.
Qed.

Lemma delete_eq t k :
  fst (delete t k) = is_stored t k /\
  len (snd (delete t k)) = (if is_stored t k then len t - 1 else len t)%Z.
Proof.
  unfold delete. destruct (delete_node (root t) k false) as [[b r]|] eqn:Hd.
  - assert (Hs : is_stored t k = true).
    { apply is_stored_spec. eapply delete_node_stored; exact Hd. }
    rewrite Hs. split; reflexivity.
  - assert (Hs : is_stored t k = false).
    { destruct (is_stored t k) eqn:Hs; [|reflexivity].
      apply is_stored_spec in Hs as (m & Hm & He).
      destruct (stored_delete_node Hm He false) as (r & Hr). congruence. }
    rewrite Hs. split; reflexivity.
Qed.

(** X1: inserting a key that was just inserted overwrites its value:
    [size()] stays as it was after the first [insert] and [search] returns
    the second value. *)
Theorem insert_overwrite t k v1 v2 :
  len (insert (insert t k v1) k v2) = len (insert t k v1) /\
  search (insert (insert t k v1) k v2) k = v2.
Proof.
  split; [|apply insert_then_search].
  rewrite (len_insert_eq (insert t k v1)), is_stored_insert. reflexivity.
Qed.

(** X2: [insert(k, v)] adds one to [size()] when the walk of [k] by whole
    fragments does not end on a terminal node, and leaves [size()] as it is
    otherwise. *)
Theorem len_after_insert t k v :
  len (insert t k v) = (if is_stored t k then len t else len t + 1)%Z.
Proof. apply len_insert_eq. Qed.

(** X3: [delete(k)] returns [True] exactly when the walk of [k] by whole
    fragments ends on a terminal node, and then takes one from [size()];
    otherwise [size()] is unchanged. *)
Theorem delete_result t k :
  fst (delete t k) = is_stored t k /\
  len (snd (delete t k)) = (if is_stored t k then len t - 1 else len t)%Z.
Proof. apply delete_eq. Qed.

(** X4: in a reachable state, iterating over the trie after [insert(k, v)]
    yields [k] and the keys that were yielded before, and no other key. *)
Theorem keys_after_insert t k v :
  reachable t ->
  forall k', In k' (iter (insert t k v)) <-> k' = k \/ In k' (iter t).
Proof.
  intros Hr k'.
  rewrite !In_iter by (apply reachable_wf; try apply reach_insert; exact Hr).
  apply stored_insert; exact Hr.
Qed.

(** X5: in a reachable state, iterating over the trie after [delete(k)]
    yields the keys that were yielded before except [k]. *)
Theorem keys_after_delete t k :
  reachable t ->
  forall k', In k' (iter (snd (delete t k))) <-> In k' (iter t) /\ k' <> k.
Proof.
  intros Hr k'.
  rewrite !In_iter by (apply reachable_wf; try apply reach_delete; exact Hr).
  apply stored_delete; exact Hr.
Qed.

Lemma keys_with_prefix_asc t p :
  reachable t ->
  ascending (keys_with_prefix t p) /\
  forall k, In k (keys_with_prefix t p) -> startswith k p = true.
Proof.
  intros Hr. pose proof (reachable_wf Hr) as Hwf. unfold keys_with_prefix.
  destruct (find_node (root t) p) as [m|] eqn:Hf; [|split; [constructor|intros k []]].
  pose proof (@find_node_wf _ p m Hwf Hf) as Hwfm.
  rewrite dfs_node by exact Hwfm. split; [apply preorder_ascending; exact Hwfm|].
  intros k Hk. apply preorder_stored in Hk as (k' & -> & _); [|exact Hwfm].
  apply startswith_prefix.
Qed.

(** X6: in a reachable state, for every prefix (also one that ends inside a
    fragment), [keys_with_prefix] yields strings in strictly ascending
    order, so without repetition, and each of them begins with the
    prefix. *)
Theorem keys_with_prefix_ordered t p :
  reachable t ->
  ascending (keys_with_prefix t p) /\
  forall k, In k (keys_with_prefix t p) -> startswith k p = true.
Proof. apply keys_with_prefix_asc. Qed.

(** X7: in a reachable state and for a prefix that is not empty,
    [keys_with_prefix] yields at least one string exactly when
    [starts_with] is [True]. *)
Theorem keys_with_prefix_nonempty t p :
  reachable t -> p <> [] ->
  keys_with_prefix t p <> [] <-> starts_with t p = true.
Proof.
  intros Hr Hp. pose proof (reachable_wf Hr) as Hwf.
  unfold keys_with_prefix, starts_with.
  destruct (find_node (root t) p) as [m|] eqn:Hf.
  - split; [reflexivity|]. intros _.
    destruct (@find_node_inner _ p m Hwf Hp Hf) as [Hbr Hwfm].
    rewrite dfs_node by exact Hwfm. apply preorder_inhabited; assumption.
  - split; [intros H; contradiction|discriminate].
Qed.

(** X8: in a reachable state [starts_with(p)] is [True] exactly when [p] is
    empty or some stored key begins with [p]. *)
Theorem starts_with_prefix_of_key t p :
  reachable t ->
  starts_with t p = true <->
  p = [] \/ exists k, is_stored t k = true /\ startswith k p = true.
Proof.
  intros Hr. rewrite (starts_with_spec p Hr). split.
  - intros [->|(k & Hk & Hs)]; [left; reflexivity|right].
    exists k. split; [apply is_stored_spec; exact Hk|exact Hs].
  - intros [->|(k & Hk & Hs)]; [left; reflexivity|right].
    exists k. split; [apply is_stored_spec; exact Hk|exact Hs].
Qed.

(** X9: in a reachable state, for a prefix whose walk by whole fragments
    ends on a node, [keys_with_prefix] yields exactly the stored keys that
    begin with the prefix, in strictly ascending order. *)
Theorem keys_with_prefix_exact t p m :
  reachable t -> walk (root t) p = Some m ->
  ascending (keys_with_prefix t p) /\
  forall k, In k (keys_with_prefix t p) <->
            is_stored t k = true /\ startswith k p = true.
Proof.
  intros Hr Hw. apply walk_lands in Hw.
  destruct (keys_with_prefix_on_node Hr Hw) as [Ha Hin]. split; [exact Ha|].
  intros k. rewrite Hin, is_stored_spec. reflexivity.
Qed.

(** ** The number of nodes *)


Lemma node_sum_cons c (a : node V) cs :
  node_sum ((c, a) :: cs) = node_count a + node_sum cs.
Proof. reflexivity. Qed.

Lemma node_count_sum n : node_count n = S (node_sum (children n)).
Proof. destruct n; reflexivity. Qed.










Lemma inner_node_count n :
  wf n -> branching n -> node_count n + 1 <= 2 * terminals n.
Proof.
  induction n as [cs e val frag IH] using node_ind'; intros Hwf Hbr.
  apply wf_inv in Hwf as [_ HF]. cbn [children] in HF.
  assert (Hsum : node_sum cs + length cs <= 2 * sum_terminals cs).
  { clear Hbr. induction cs as [|[c child] cs IHcs]; [cbv; lia|].
    inversion IH as [|? ? IHc IH']; subst.
    inversion HF as [|? ? (_ & Hb & Hw) HF']; subst.
    specialize (IHcs IH' HF'). specialize (IHc Hw Hb). cbn [snd] in IHc.
    rewrite node_sum_cons. change (sum_terminals ((c, child) :: cs))
      with (terminals child + sum_terminals cs). cbn [length]. lia. }
  rewrite node_count_sum, terminals_eq. cbn [children is_end].
  unfold branching in Hbr. cbn [is_end children] in Hbr.
  destruct e; [lia|]. specialize (Hbr eq_refl). lia.
Qed.

Lemma root_node_count n : wf n -> node_count n <= 2 * terminals n + 1.
Proof.
  intros Hwf. apply wf_inv in Hwf as [_ HF].
  assert (Hsum : node_sum (children n) <= 2 * sum_terminals (children n)).
  { induction (children n) as [|[c child] cs IHcs]; [cbv; lia|].
    inversion HF as [|? ? (_ & Hb & Hw) HF']; subst. specialize (IHcs HF').
    pose proof (inner_node_count Hw Hb) as Hc. cbn [snd] in Hc.
    rewrite node_sum_cons. change (sum_terminals ((c, child) :: cs))
      with (terminals child + sum_terminals cs). lia. }
  rewrite node_count_sum, terminals_eq. destruct (is_end n); lia.
Qed.


(** X11: in a reachable state the tree has at most [2 * size() + 1] nodes,
    whatever the lengths of the keys. *)
Theorem nodes_bound t :
  reachable t -> (Z.of_nat (node_count (root t)) <= 2 * len t + 1)%Z.
Proof.
  intros Hr. unfold len. rewrite (reachable_size Hr).
  pose proof (root_node_count (reachable_wf Hr)). lia.
Qed.

(** ** The values of the other keys *)

Lemma lands_same_children cs e val frag frag' k m :
  lands (Node cs e val frag) k m ->
  exists m', lands (Node cs e val frag') k m' /\
             is_end m' = is_end m /\ value m' = value m.
Proof.
  intros H. destruct k as [|c k].
  - inversion H; subst. eexists; split; [apply lands_here|split; reflexivity].
  - exists m. split; [|split; reflexivity].
    eapply lands_reroot; [exact H|discriminate].
Qed.

Lemma insert_node_keeps n k' m :
  lands n k' m ->
  forall k v, k' <> k ->
  exists m', lands (fst (insert_node n k v)) k' m' /\
             is_end m' = is_end m /\ value m' = value m.
Proof.
  induction 1 as [n|n c' k0 child k1 m Hl Hk Hlands IH]; intros k v Hne.
  - destruct k as [|c k]; [contradiction|]. destruct n as [cs e val frag].
    destruct (insert_node_children cs e val frag c k v) as (X & ->).
    eexists; split; [apply lands_here|split; reflexivity].
  - destruct n as [cs e val frag]. cbn [children] in Hl.
    destruct k as [|c k].
    { exists m. split; [|split; reflexivity].
      cbn [insert_node fst]. eapply lands_step; [exact Hl|exact Hk|exact Hlands]. }
    destruct (Ascii.eqb c c') eqn:Hcc.
    2:{ apply Ascii.eqb_neq in Hcc.
        destruct (insert_node_children cs e val frag c k v) as (X & ->).
        exists m. split; [|split; reflexivity].
        eapply lands_step; [|exact Hk|exact Hlands].
        cbn [children]. rewrite lookup_update_ne by exact Hcc. exact Hl. }
    apply Ascii.eqb_eq in Hcc; subst c'.
    rewrite insert_node_cons; cbv zeta. rewrite Hl.
    remember (match_len (c :: k) (fragment child)) as j eqn:Ej.
    pose proof (match_len_le_fragment (c :: k) (fragment child)) as Hle.
    pose proof (match_len_le_key (c :: k) (fragment child)) as Hlk.
    rewrite <- Ej in Hle, Hlk.
    destruct (j =? length (fragment child))%nat eqn:Hj.
    + apply Nat.eqb_eq in Hj.
      pose proof (@match_len_full (c :: k) (fragment child)) as Hfull.
      rewrite <- Ej, Hj in Hfull. specialize (Hfull eq_refl).
      destruct (IH (skipn j (c :: k)) v) as (m' & Hm' & He & Hv).
      { intros ->. apply Hne. rewrite Hk, Hj. symmetry. exact Hfull. }
      exists m'. split; [|auto]. cbn [fst].
      eapply lands_step; [cbn [children]; apply lookup_update_eq| |exact Hm'].
      rewrite fragment_insert_node. exact Hk.
    + apply Nat.eqb_neq in Hj.
      assert (Hx : hd_error (skipn j (fragment child))
                   = Some (nth j (fragment child) zero))
        by (apply hd_error_skipn; lia).
      destruct (skipn j (fragment child)) as [|x f2] eqn:Hf2; [discriminate|].
      injection Hx as Hx.
      assert (Hchild : exists m',
                 lands (Node (children child) (is_end child) (value child) (x :: f2))
                       k1 m' /\ is_end m' = is_end m /\ value m' = value m).
      { destruct child as [ccs ce cval cfrag]. cbn [children is_end value].
        eapply lands_same_children; exact Hlands. }
      destruct Hchild as (m' & Hm' & He & Hv).
      assert (Hkey : c :: k0 = firstn j (fragment child) ++ (x :: f2 ++ k1)).
      { rewrite Hk. rewrite <- (firstn_skipn j (fragment child)) at 1.
        rewrite Hf2, <- app_assoc. reflexivity. }
      exists m'. split; [|auto].
      destruct (j =? length (c :: k))%nat eqn:Hjk; cbn [fst].
      * eapply lands_step; [cbn [children]; apply lookup_update_eq|exact Hkey|].
        eapply lands_step; [| |exact Hm']; [|reflexivity].
        cbn [children]. rewrite <- Hx. apply lookup_update_eq.
      * apply Nat.eqb_neq in Hjk.
        pose proof (@match_len_stop (c :: k) (fragment child)) as Hstop.
        rewrite <- Ej in Hstop.
        assert (Hxr : nth j (fragment child) zero <> hd zero (skipn j (c :: k)))
          by (apply Hstop; lia).
        eapply lands_step; [cbn [children]; apply lookup_update_eq|exact Hkey|].
        eapply lands_step; [| |exact Hm']; [|reflexivity].
        cbn [children]. rewrite <- Hx in *.
        rewrite lookup_update_ne by (intros E; apply Hxr; symmetry; exact E).
        apply lookup_update_eq.
Qed.

Lemma search_stored t k m :
  lands (root t) k m -> is_end m = true -> search t k = value m.
Proof.
  intros Hm He. unfold search. rewrite (lands_find_node Hm), He. reflexivity.
Qed.

(** The merge step keeps the values. *)
Lemma merge_keeps nonroot n k m :
  lands n k m -> is_end m = true ->
  exists k3 m', fragment n ++ k = fragment (merge nonroot n) ++ k3 /\
                lands (merge nonroot n) k3 m' /\
                is_end m' = true /\ value m' = value m.
Proof.
  intros Hm He. unfold merge.
  destruct (children n) as [|[c0 only] [|p rest]] eqn:Hcs;
    try (exists k, m; repeat split; assumption).
  destruct (negb (is_end n) && nonroot) eqn:Hc;
    [|exists k, m; repeat split; assumption].
  apply andb_true_iff in Hc as [Hc _]. apply negb_true_iff in Hc.
  inversion Hm as [|? c k0 child k1 ? Hl Hk Hlands]; subst.
  - rewrite Hc in He; discriminate.
  - rewrite Hcs in Hl. simpl in Hl.
    destruct (Ascii.eqb c0 c); [|discriminate]. injection Hl as <-.
    destruct only as [ocs oe oval ofrag]. cbn [children is_end value fragment] in *.
    destruct (lands_same_children (fragment n ++ ofrag) Hlands) as (m' & Hm' & He' & Hv').
    exists k1, m'. split; [rewrite Hk; apply app_assoc|].
    split; [exact Hm'|]. split; [rewrite He'; exact He|exact Hv'].
Qed.

Lemma cleanup_keeps nonroot n n' k m :
  cleanup nonroot n = (false, n') -> lands n k m -> is_end m = true ->
  exists k3 m', fragment n ++ k = fragment n' ++ k3 /\ lands n' k3 m' /\
                is_end m' = true /\ value m' = value m.
Proof.
  unfold cleanup. intros Hc Hm He.
  assert (Hn : n' = merge nonroot n).
  { destruct (children n); [destruct (nonroot && negb (is_end n))|];
      congruence. }
  subst n'. apply merge_keeps; assumption.
Qed.

(** [delete(k)] keeps the values of the other stored keys. *)
Lemma delete_node_keeps n : forall k nonroot n' k' m,
  wf n -> delete_node n k nonroot = Some (false, n') ->
  lands n k' m -> is_end m = true -> k' <> k ->
  exists k3 m', fragment n ++ k' = fragment n' ++ k3 /\ lands n' k3 m' /\
                is_end m' = true /\ value m' = value m.
Proof.
  induction n as [cs e val frag IH] using node_ind'; intros k nonroot n' k' m Hwf Hd Hm He Hne.
  destruct k as [|c k].
  - cbn [delete_node] in Hd. destruct e; [|discriminate]. injection Hd as Hd.
    destruct k' as [|c' k']; [contradiction|].
    destruct (@cleanup_keeps nonroot (Node cs false None frag) n' (c' :: k') m Hd)
      as (k3 & m' & Hk3 & Hm' & He' & Hv');
      [eapply lands_reroot; [exact Hm|discriminate]|exact He|].
    exists k3, m'. auto.
  - rewrite delete_node_cons in Hd; cbv zeta in Hd.
    destruct (lookup c cs) as [child|] eqn:Hl; [|discriminate].
    destruct (startswith (c :: k) (fragment child)) eqn:Hs; [|discriminate].
    apply startswith_app in Hs.
    destruct (@wf_child _ c child Hwf Hl) as (_ & _ & Hwfc).
    child_IH IH Hl IHc.
    remember (skipn (length (fragment child)) (c :: k)) as kc eqn:Ekc.
    destruct (delete_node child kc true) as [[bc child']|] eqn:Hdc; [|discriminate].
    (* the walk of [k'] in the node whose dictionary is [cs1] *)
    assert (Hwalk : forall cs1,
               (forall c', c' <> c -> lookup c' cs1 = lookup c' cs) ->
               (forall k0 k1, lookup c cs = Some child -> c :: k0 = fragment child ++ k1 ->
                  k' = c :: k0 -> lands child k1 m ->
                  exists m', lands (Node cs1 e val frag) k' m' /\
                             is_end m' = true /\ value m' = value m) ->
               exists m', lands (Node cs1 e val frag) k' m' /\
                          is_end m' = true /\ value m' = value m).
    { intros cs1 Hother Hsame.
      inversion Hm as [|? c' k0 ch k1 ? Hl' Hk' Hlands]; subst.
      - eexists; split; [apply lands_here|split; [exact He|reflexivity]].
      - cbn [children] in Hl'. destruct (Ascii.eqb c c') eqn:Hcc.
        + apply Ascii.eqb_eq in Hcc; subst c'.
          rewrite Hl in Hl'. injection Hl' as <-.
          eapply Hsame; [exact Hl|exact Hk'|reflexivity|exact Hlands].
        + apply Ascii.eqb_neq in Hcc. exists m. split; [|auto].
          eapply lands_step; [|exact Hk'|exact Hlands].
          cbn [children]. rewrite Hother by auto. exact Hl'. }
    destruct bc.
    + injection Hd as Hd.
      destruct (Hwalk (remove c cs)) as (m1 & Hm1 & He1 & Hv1).
      * intros c' Hc'. apply lookup_remove_ne. auto.
      * intros k0 k1 _ Hk' -> Hlands. exfalso. apply Hne.
        pose proof (delete_node_spec _ _ Hwfc Hdc) as Hspec. cbv beta iota in Hspec.
        assert (Hk1 : k1 = kc) by (apply Hspec; exists m; auto).
        rewrite Hk', Hk1, Hs. reflexivity.
      * destruct (@cleanup_keeps nonroot _ n' k' m1 Hd Hm1 He1)
          as (k3 & m' & Hk3 & Hm' & He' & Hv').
        exists k3, m'. repeat split; try assumption. congruence.
    + injection Hd as <-. cbn [fragment].
      destruct (Hwalk (update c child' cs)) as (m1 & Hm1 & He1 & Hv1).
      * intros c' Hc'. apply lookup_update_ne. auto.
      * intros k0 k1 _ Hk' -> Hlands.
        destruct (IHc kc true child' k1 m Hwfc Hdc Hlands He) as (k3 & m' & Hk3 & Hm' & He' & Hv').
        { intros ->. apply Hne. rewrite Hk', Hs. reflexivity. }
        exists m'. split; [|auto].
        eapply lands_step; [cbn [children]; apply lookup_update_eq| |exact Hm'].
        rewrite Hk'. exact Hk3.
      * exists k', m1. auto.
Qed.

Lemma search_insert_other t k v k' :
  stored t k' -> k' <> k -> search (insert t k v) k' = search t k'.
Proof.
  intros (m & Hm & He) Hne.
  destruct (insert_node_keeps Hm v Hne) as (m' & Hm' & He' & Hv').
  rewrite (search_stored t Hm He).
  rewrite <- Hv'. apply search_stored.
  - rewrite root_insert. exact Hm'.
  - rewrite He'. exact He.
Qed.

Lemma search_delete_other t k k' :
  reachable t -> stored t k' -> k' <> k ->
  search (snd (delete t k)) k' = search t k'.
Proof.
  intros Hr (m & Hm & He) Hne. pose proof (reachable_wf Hr) as Hwf.
  unfold delete.
  destruct (delete_node (root t) k false) as [[b r]|] eqn:Hd; [|reflexivity].
  cbn [snd]. pose proof (delete_node_root _ _ Hd) as ->.
  destruct (delete_node_spec _ _ Hwf Hd) as [_ Hfrag]. specialize (Hfrag eq_refl).
  destruct (delete_node_keeps _ Hwf Hd Hm He Hne) as (k3 & m' & Hk3 & Hm' & He' & Hv').
  rewrite Hfrag in Hk3. apply app_inv_head in Hk3. subst k3.
  rewrite (search_stored t Hm He), <- Hv'.
  apply search_stored; [exact Hm'|exact He'].
Qed.

(** X12: [insert(k, v)] does not change what [search] returns for another
    stored key. *)
Theorem search_other_after_insert t k v k' :
  is_stored t k' = true -> k' <> k ->
  search (insert t k v) k' = search t k'.
Proof.
  intros Hs Hne. apply search_insert_other; [|exact Hne].
  apply is_stored_spec; exact Hs.
Qed.

(** X13: in a reachable state [delete(k)] does not change what [search]
    returns for another stored key. *)
Theorem search_other_after_delete t k k' :
  reachable t -> is_stored t k' = true -> k' <> k ->
  search (snd (delete t k)) k' = search t k'.
Proof.
  intros Hr Hs Hne. apply search_delete_other; [exact Hr| |exact Hne].
  apply is_stored_spec; exact Hs.
Qed.

(** ** [insert] followed by [delete] *)

Lemma clean_inv n :
  clean n ->
  (is_end n = false -> value n = None) /\ Forall (fun p => clean (snd p)) (children n).
Proof. intros H; inversion H; subst; cbn [is_end value children]; auto. Qed.

Lemma clean_child n c child : clean n -> lookup c (children n) = Some child -> clean child.
Proof.
  intros H Hl. apply clean_inv in H as [_ HF].
  exact (@Forall_lookup _ c _ child HF Hl).
Qed.

Lemma clean_leaf v frag : clean (Node [] true v frag).
Proof. constructor; [discriminate|constructor]. Qed.

Lemma clean_refragment n frag' :
  clean n -> clean (Node (children n) (is_end n) (value n) frag').
Proof. intros H. apply clean_inv in H as [? ?]. constructor; assumption. Qed.

Lemma insert_node_clean n : forall k v, clean n -> clean (fst (insert_node n k v)).
Proof.
  induction n as [cs e val frag IH] using node_ind'; intros k v Hc.
  pose proof (clean_inv Hc) as [Hval HF]; cbn [is_end value children] in Hval, HF.
  destruct k as [|c k]; [constructor; [discriminate|exact HF]|].
  rewrite insert_node_cons; cbv zeta.
  destruct (lookup c cs) as [child|] eqn:Hl.
  - pose proof (@clean_child _ c child Hc Hl) as Hcc.
    destruct (_ =? length (fragment child))%nat.
    + child_IH IH Hl IHc. cbn [fst]. constructor; [exact Hval|].
      apply Forall_update; [exact HF|]. apply IHc; exact Hcc.
    + destruct (_ =? length (c :: k))%nat; cbn [fst];
        (constructor; [exact Hval|]); (apply Forall_update; [exact HF|]); cbn [snd].
      * constructor; [discriminate|].
        apply Forall_update; [constructor|]. apply clean_refragment; exact Hcc.
      * constructor; [reflexivity|].
        apply Forall_update; [|apply clean_leaf].
        apply Forall_update; [constructor|]. apply clean_refragment; exact Hcc.
  - cbn [fst]. constructor; [exact Hval|].
    apply Forall_update; [exact HF|]. apply clean_leaf.
Qed.

Lemma merge_clean nonroot n : clean n -> clean (merge nonroot n).
Proof.
  intros Hc. unfold merge.
  destruct (children n) as [|[c0 only] [|p rest]] eqn:Hcs; try exact Hc.
  destruct (negb (is_end n) && nonroot); [|exact Hc].
  apply clean_inv in Hc as [_ HF]. rewrite Hcs in HF.
  inversion HF; subst. apply clean_refragment. assumption.
Qed.

Lemma cleanup_clean nonroot n b n' : clean n -> cleanup nonroot n = (b, n') -> clean n'.
Proof.
  intros Hc. unfold cleanup. destruct (children n).
  - destruct (nonroot && negb (is_end n)); intros [= <- <-];
      [exact Hc|apply merge_clean; exact Hc].
  - intros [= <- <-]. apply merge_clean; exact Hc.
Qed.

Lemma delete_node_clean n : forall k nonroot b n',
  clean n -> delete_node n k nonroot = Some (b, n') -> clean n'.
Proof.
  induction n as [cs e val frag IH] using node_ind'; intros k nonroot b n' Hc.
  pose proof (clean_inv Hc) as [Hval HF]; cbn [is_end value children] in Hval, HF.
  destruct k as [|c k].
  - cbn [delete_node]. destruct e; [|discriminate]. intros [= H].
    eapply cleanup_clean; [|exact H]. constructor; [reflexivity|exact HF].
  - rewrite delete_node_cons; cbv zeta.
    destruct (lookup c cs) as [child|] eqn:Hl; [|discriminate].
    destruct (startswith (c :: k) (fragment child)); [|discriminate].
    child_IH IH Hl IHc.
    destruct (delete_node child (skipn (length (fragment child)) (c :: k)) true)
      as [[[|] child']|] eqn:Hd; [| |discriminate].
    + intros [= H]. eapply cleanup_clean; [|exact H].
      constructor; [exact Hval|apply Forall_remove; exact HF].
    + intros [= <- <-]. constructor; [exact Hval|].
      apply Forall_update; [exact HF|].
      eapply IHc; [|exact Hd]. eapply clean_child; [exact Hc|exact Hl].
Qed.

Lemma reachable_clean t : reachable t -> clean (root t).
Proof.
  induction 1 as [|t k v _ IH|t k _ IH].
  - constructor; [reflexivity|constructor].
  - rewrite root_insert. apply insert_node_clean; exact IH.
  - unfold delete.
    destruct (delete_node (root t) k false) as [[b r]|] eqn:Hd; [|exact IH].
    cbn [snd root]. eapply delete_node_clean; [exact IH|exact Hd].
Qed.

(** The prune and merge steps leave a node that satisfies [branching]. *)
Lemma cleanup_stable nonroot n :
  (nonroot = true -> branching n) -> cleanup nonroot n = (false, n).
Proof.
  intros Hbr. unfold cleanup, merge, branching in *.
  destruct (children n) as [|[c0 only] [|p rest]] eqn:Hcs; try reflexivity.
  - destruct nonroot; [|reflexivity]. destruct (is_end n); [reflexivity|].
    specialize (Hbr eq_refl eq_refl). simpl in Hbr. lia.
  - destruct nonroot; [|rewrite andb_false_r; reflexivity].
    destruct (is_end n); [reflexivity|].
    specialize (Hbr eq_refl eq_refl). simpl in Hbr. lia.
Qed.

Lemma update_update c (a0 X : node V) cs :
  lookup c cs = Some a0 -> update c a0 (update c X cs) = cs.
Proof.
  induction cs as [|[c' a'] cs IH]; simpl; [discriminate|].
  destruct (Ascii.eqb c' c) eqn:E; simpl; rewrite E.
  - intros [= ->]. reflexivity.
  - intros H. f_equal. auto.
Qed.

Lemma remove_update_absent c (X : node V) cs :
  lookup c cs = None -> remove c (update c X cs) = cs.
Proof.
  induction cs as [|[c' a'] cs IH]; simpl.
  - rewrite ascii_eqb_refl. reflexivity.
  - destruct (Ascii.eqb c' c) eqn:E; [discriminate|]. simpl. rewrite E.
    intros H. f_equal. auto.
Qed.

Lemma startswith_refl (k : str) : startswith k k = true.
Proof.
  pose proof (startswith_prefix k []) as H. rewrite app_nil_r in H. exact H.
Qed.

Lemma delete_leaf v frag :
  delete_node (Node [] true v frag) [] true = Some (true, Node [] false None frag).
Proof. reflexivity. Qed.

(** Deleting the key at a split node, or the leaf below it, merges the
    split node back into the child that was split. *)
Lemma cleanup_split x child j f1 :
  f1 = firstn j (fragment child) ->
  cleanup true (Node [(x, Node (children child) (is_end child) (value child)
                               (skipn j (fragment child)))] false None f1)
  = (false, child).
Proof.
  intros ->. unfold cleanup, merge. cbn [children is_end value fragment negb andb].
  rewrite firstn_skipn. destruct child; reflexivity.
Qed.

Lemma insert_delete_node n : forall k v nonroot,
  wf n -> (nonroot = true -> branching n) -> clean n -> ~ stored_at n k ->
  delete_node (fst (insert_node n k v)) k nonroot = Some (false, n).
Proof.
  induction n as [cs e val frag IH] using node_ind'; intros k v nonroot Hwf Hbr Hc Hns.
  pose proof (clean_inv Hc) as [Hval _]; cbn [is_end value] in Hval.
  destruct k as [|c k].
  - assert (He : e = false).
    { destruct e; [|reflexivity]. exfalso. apply Hns. apply stored_at_nil. reflexivity. }
    subst e. rewrite (Hval eq_refl) in *.
    cbn [insert_node fst delete_node]. rewrite cleanup_stable by exact Hbr. reflexivity.
  - rewrite insert_node_cons; cbv zeta.
    destruct (lookup c cs) as [child|] eqn:Hl.
    + destruct (@wf_child _ c child Hwf Hl) as (Hedge & Hbrc & Hwfc).
      pose proof (@clean_child _ c child Hc Hl) as Hcc.
      remember (match_len (c :: k) (fragment child)) as j eqn:Ej.
      pose proof (match_len_le_fragment (c :: k) (fragment child)) as Hle.
      pose proof (match_len_le_key (c :: k) (fragment child)) as Hlk.
      pose proof (match_len_firstn (c :: k) (fragment child)) as Hfirst.
      rewrite <- Ej in Hle, Hlk, Hfirst.
      destruct (j =? length (fragment child))%nat eqn:Hj.
      * apply Nat.eqb_eq in Hj.
        pose proof (@match_len_full (c :: k) (fragment child)) as Hfull.
        rewrite <- Ej, Hj in Hfull. specialize (Hfull eq_refl).
        child_IH IH Hl IHc. cbn [fst].
        rewrite delete_node_cons; cbv zeta.
        rewrite lookup_update_eq, fragment_insert_node.
        rewrite (proj2 (startswith_app _ _) Hfull), <- Hj.
        rewrite (IHc (skipn j (c :: k)) v true Hwfc (fun _ => Hbrc) Hcc).
        -- rewrite update_update by exact Hl. reflexivity.
        -- intros (m & Hm & He). apply Hns. exists m. split; [|exact He].
           eapply lands_step; [exact Hl| |exact Hm]. rewrite Hj. exact Hfull.
      * apply Nat.eqb_neq in Hj.
        assert (Hkey : c :: k = firstn j (fragment child) ++ skipn j (c :: k))
          by (rewrite <- Hfirst; symmetry; apply firstn_skipn).
        assert (Hlen : length (firstn j (fragment child)) = j)
          by (apply firstn_length_le; exact Hle).
        assert (Hstart : startswith (c :: k) (firstn j (fragment child)) = true)
          by (rewrite Hkey at 1; apply startswith_prefix).
        destruct (j =? length (c :: k))%nat eqn:Hjk; cbn [fst];
          rewrite delete_node_cons; cbv zeta;
          rewrite lookup_update_eq; cbn [fragment]; rewrite Hstart, Hlen.
        -- apply Nat.eqb_eq in Hjk.
           replace (skipn j (c :: k)) with (@nil ascii)
             by (rewrite Hjk; symmetry; apply skipn_all).
           cbn [delete_node update]. rewrite cleanup_split by reflexivity.
           rewrite update_update by exact Hl. reflexivity.
        -- apply Nat.eqb_neq in Hjk.
           pose proof (@match_len_stop (c :: k) (fragment child)) as Hstop.
           rewrite <- Ej in Hstop.
           assert (Hxr : nth j (fragment child) zero <> hd zero (skipn j (c :: k)))
             by (apply Hstop; lia).
           destruct (skipn j (c :: k)) as [|r0 rem] eqn:Hrem.
           { exfalso. apply (f_equal (@length _)) in Hrem.
             rewrite length_skipn in Hrem. cbn [length] in Hrem, Hjk, Hlk. lia. }
           cbn [hd] in Hxr |- *. rewrite delete_node_cons; cbv zeta.
           rewrite lookup_update_eq. cbn [fragment].
           rewrite startswith_refl.
           replace (skipn (length (r0 :: rem)) (r0 :: rem)) with (@nil ascii)
             by (symmetry; apply skipn_all).
           rewrite delete_leaf.
           assert (Hrm : remove r0
                           (update r0 (Node [] true v (r0 :: rem))
                              (update (nth j (fragment child) zero)
                                 (Node (children child) (is_end child) (value child)
                                       (skipn j (fragment child))) []))
                         = [(nth j (fragment child) zero,
                             Node (children child) (is_end child) (value child)
                                  (skipn j (fragment child)))]).
           { apply Ascii.eqb_neq in Hxr. simpl. rewrite Hxr. simpl.
             rewrite Hxr, ascii_eqb_refl. reflexivity. }
           rewrite Hrm, cleanup_split by reflexivity.
           rewrite update_update by exact Hl. reflexivity.
    + cbn [fst]. rewrite delete_node_cons; cbv zeta.
      rewrite lookup_update_eq. cbn [fragment].
      rewrite startswith_refl.
      replace (skipn (length (c :: k)) (c :: k)) with (@nil ascii)
        by (symmetry; apply skipn_all).
      rewrite delete_leaf, remove_update_absent by exact Hl.
      rewrite cleanup_stable by exact Hbr. reflexivity.
Qed.

(** X14: in a reachable state, [insert(k, v)] of a key that is not stored
    followed by [delete(k)] returns [True] and gives back the trie as it
    was: the same nodes, fragments, values and [size()]. *)
Theorem insert_then_delete t k v :
  reachable t -> is_stored t k = false ->
  delete (insert t k v) k = (true, t).
Proof.
  intros Hr Hk. pose proof (@not_stored t k Hk) as Hns.
  unfold delete. rewrite root_insert.
  rewrite (@insert_delete_node (root t) k v false (reachable_wf Hr)
             ltac:(discriminate) (reachable_clean Hr) Hns).
  f_equal. pose proof (proj2 (len_insert t k v) Hns) as Hlen. unfold len in Hlen.
  rewrite Hlen. destruct t as [r s]. cbn [root size]. f_equal. lia.
Qed.

(** ** What every node of a reachable trie satisfies *)

Lemma below_clean r m : clean r -> below r m -> clean m.
Proof.
  intros Hc. induction 1 as [c child Hin|m c child _ IH Hin].
  - apply clean_inv in Hc as [_ HF]. rewrite Forall_forall in HF. apply (HF _ Hin).
  - apply clean_inv in IH as [_ HF]. rewrite Forall_forall in HF. apply (HF _ Hin).
Qed.

Lemma reachable_root_fragment t : reachable t -> fragment (root t) = [].
Proof.
  induction 1 as [|t k v Hr IH|t k Hr IH].
  - reflexivity.
  - rewrite root_insert, fragment_insert_node. exact IH.
  - unfold delete.
    destruct (delete_node (root t) k false) as [[b r]|] eqn:Hd; [|exact IH].
    cbn [snd root]. pose proof (delete_node_root _ _ Hd) as ->.
    destruct (delete_node_spec _ _ (reachable_wf Hr) Hd) as [_ Hfrag].
    rewrite (Hfrag eq_refl). exact IH.
Qed.

(** X15: in every reachable state the root has the empty fragment, and at
    every node each child is filed under the first character of its
    fragment (so no fragment below the root is empty) and the keys of the
    dictionary are distinct. *)
Theorem reachable_edges t :
  reachable t ->
  fragment (root t) = [] /\
  forall m, m = root t \/ below (root t) m ->
    NoDup (map fst (children m)) /\
    forall c child, In (c, child) (children m) -> hd_error (fragment child) = Some c.
Proof.
  intros Hr. split; [apply reachable_root_fragment; exact Hr|].
  pose proof (reachable_wf Hr) as Hwf.
  assert (H : forall m, wf m ->
            NoDup (map fst (children m)) /\
            forall c child, In (c, child) (children m) ->
                            hd_error (fragment child) = Some c).
  { intros m Hm. apply wf_inv in Hm as [Hnd HF]. split; [exact Hnd|].
    intros c child Hin. rewrite Forall_forall in HF. apply (HF _ Hin). }
  intros m [->|Hm]; apply H; [exact Hwf|apply (below_wf Hwf Hm)].
Qed.

(** X16: in every reachable state a node that is not terminal holds the
    value [None]. *)
Theorem reachable_values t :
  reachable t ->
  forall m, m = root t \/ below (root t) m -> is_end m = false -> value m = None.
Proof.
  intros Hr m Hm. pose proof (reachable_clean Hr) as Hc.
  assert (Hcm : clean m) by (destruct Hm as [->|Hm]; [exact Hc|exact (below_clean Hc Hm)]).
  apply clean_inv in Hcm. apply Hcm.
Qed.

(** ** The trie as a dictionary *)

Lemma str_eqb_eq (a b : str) : str_eqb a b = true <-> a = b.
Proof.
  revert b; induction a as [|x a IH]; intros [|y b]; simpl;
    try (split; [discriminate|discriminate]); [tauto|].
  rewrite andb_true_iff, Ascii.eqb_eq, IH. split.
  - intros [-> ->]; reflexivity.
  - intros [= -> ->]; auto.
Qed.

Lemma str_eqb_neq (a b : str) : str_eqb a b = false <-> a <> b.
Proof.
  destruct (str_eqb a b) eqn:E.
  - apply str_eqb_eq in E. split; [discriminate|contradiction].
  - split; [|reflexivity]. intros _ Hab. apply str_eqb_eq in Hab. congruence.
Qed.

Lemma run_snoc (ops : list (op V)) (o : op V) :
  run (ops ++ [o]) = apply_op (run ops) o.
Proof. unfold run. rewrite fold_left_app. reflexivity. Qed.

Lemma model_snoc (ops : list (op V)) (o : op V) :
  model (ops ++ [o]) = model_op (model ops) o.
Proof. unfold model. rewrite fold_left_app. reflexivity. Qed.

Lemma reachable_run (ops : list (op V)) : reachable (run ops).
Proof.
  induction ops as [|o ops IH] using rev_ind; [apply reach_empty|].
  rewrite run_snoc. destruct o; [apply reach_insert|apply reach_delete]; exact IH.
Qed.

Lemma run_model (ops : list (op V)) : forall k,
  (stored (run ops) k <-> model ops k <> None) /\
  (forall v, model ops k = Some v -> search (run ops) k = v).
Proof.
  induction ops as [|o ops IH] using rev_ind; intros k.
  - split; [|discriminate]. split; [|intros H; exfalso; apply H; reflexivity].
    intros (m & Hm & He). inversion Hm; subst; discriminate.
  - rewrite run_snoc, model_snoc. pose proof (reachable_run ops) as Hr.
    destruct (IH k) as [IHs IHv].
    destruct o as [k0 v0|k0]; cbn [apply_op model_op];
      destruct (str_eqb k k0) eqn:E.
    + apply str_eqb_eq in E; subst k0. split.
      * split; [discriminate|]. intros _. apply is_stored_spec, is_stored_insert.
      * intros v [= <-]. apply insert_then_search.
    + apply str_eqb_neq in E. split.
      * rewrite (@stored_insert (run ops) k0 v0 k Hr), <- IHs. split; [|auto].
        intros [->|H]; [contradiction|exact H].
      * intros v Hv. rewrite search_insert_other; [apply IHv; exact Hv| |exact E].
        apply IHs. congruence.
    + apply str_eqb_eq in E; subst k0. split; [|discriminate].
      rewrite (@stored_delete (run ops) k k Hr). split; [intros [_ H]; contradiction|].
      intros H; exfalso; apply H; reflexivity.
    + apply str_eqb_neq in E. split.
      * rewrite (@stored_delete (run ops) k0 k Hr), <- IHs. split; [intros [H _]; exact H|auto].
      * intros v Hv. rewrite search_delete_other; [apply IHv; exact Hv|exact Hr| |exact E].
        apply IHs. congruence.
Qed.

(** X22: the trie behaves as a dictionary on its stored keys.  After any
    sequence of [insert] and [delete] calls on a new trie, a key is stored
    exactly when a [dict] given the same calls would hold it, and
    [search] then returns the value that the [dict] would hold; [delete]
    answers as [del] on the [dict] would succeed. *)
Theorem trie_is_dict (ops : list (op V)) (k : str) :
  (is_stored (run ops) k = true <-> model ops k <> None) /\
  (forall v, model ops k = Some v -> search (run ops) k = v) /\
  (fst (delete (run ops) k) = true <-> model ops k <> None).
Proof.
  destruct (run_model ops k) as [Hs Hv].
  split; [rewrite is_stored_spec; exact Hs|]. split; [exact Hv|].
  rewrite (proj1 (delete_eq (run ops) k)), is_stored_spec. exact Hs.
Qed.

End TrieFacts.

(** ** The service *)

Section ServiceFacts.
Variable V : Type.
Variable of_key : str -> V.

Lemma In_firstn (A : Type) (n : nat) (l : list A) (x : A) :
  In x (firstn n l) -> In x l.
Proof.
  revert l; induction n as [|n IH]; intros [|a l]; simpl; try tauto.
  intros [->|H]; [left; reflexivity|right; apply IH; exact H].
Qed.

Lemma take_matches_firstn (limit : Z) (keys : list str) : forall matches,
  take_matches limit keys matches =
  matches ++ firstn (Z.to_nat (Z.max 1 (limit - Z.of_nat (length matches)))) keys.
Proof.
  induction keys as [|key keys IH]; intros matches.
  - rewrite firstn_nil, app_nil_r. reflexivity.
  - cbn [take_matches]. rewrite length_app. cbn [length].
    destruct (limit <=? Z.of_nat (length matches + 1))%Z eqn:Hl.
    + apply Z.leb_le in Hl.
      replace (Z.to_nat (Z.max 1 (limit - Z.of_nat (length matches)))) with 1%nat by lia.
      destruct keys; reflexivity.
    + apply Z.leb_gt in Hl. rewrite IH, length_app. cbn [length].
      replace (Z.to_nat (Z.max 1 (limit - Z.of_nat (length matches))))
        with (S (Z.to_nat (Z.max 1 (limit - Z.of_nat (length matches + 1))))) by lia.
      cbn [firstn]. rewrite <- app_assoc. reflexivity.
Qed.

Lemma reachable_seeds (ws : list string) : forall t : trie V,
  reachable t ->
  reachable (fold_left (fun t word => insert t (s2l word) (Some (of_key (s2l word))))
                       ws t).
Proof.
  induction ws as [|w ws IH]; intros t Hr; [exact Hr|].
  cbn [fold_left]. apply IH. apply reach_insert. exact Hr.
Qed.

Lemma stored_seeds (ws : list string) : forall (t : trie V) k,
  reachable t ->
  stored (fold_left (fun t word => insert t (s2l word) (Some (of_key (s2l word))))
                    ws t) k ->
  stored t k \/ In k (map s2l ws).
Proof.
  induction ws as [|w ws IH]; intros t k Hr Hs; [left; exact Hs|].
  cbn [fold_left] in Hs. apply IH in Hs; [|apply reach_insert; exact Hr].
  destruct Hs as [Hs|Hs]; [|right; right; exact Hs].
  apply stored_insert in Hs; [|exact Hr].
  destruct Hs as [->|Hs]; [right; left; reflexivity|left; exact Hs].
Qed.

Lemma reachable_seeded : reachable (seeded of_key).
Proof. apply reachable_seeds. apply reach_empty. Qed.

Lemma reachable_handle (t : trie V) (r : request V) :
  reachable t -> reachable (handle of_key t r).
Proof.
  intros Hr. destruct r as [q|q limit|key value|q]; cbn [handle]; try exact Hr.
  - unfold insert_handler. destruct key; [exact Hr|].
    destruct (_ <? _)%nat; [exact Hr|]. apply reach_insert; exact Hr.
  - unfold delete_handler. destruct q; [exact Hr|].
    pose proof (reach_delete (a :: q) Hr) as Hd.
    destruct (delete t (a :: q)). exact Hd.
Qed.

Lemma reachable_fold (requests : list (request V)) : forall t,
  reachable t -> reachable (fold_left (handle of_key) requests t).
Proof.
  induction requests as [|r rs IH]; intros t Hr; [exact Hr|].
  cbn [fold_left]. apply IH. apply reachable_handle; exact Hr.
Qed.

Lemma reachable_serve (requests : list (request V)) : reachable (serve of_key requests).
Proof. apply reachable_fold, reachable_seeded. Qed.

Lemma seed_words_ok : Forall key_ok (map s2l _SEED_WORDS).
Proof.
  apply Forall_forall. intros k Hk.
  assert (H : forallb (fun k => (1 <=? length k)%nat && (length k <=? 256)%nat)
                      (map s2l _SEED_WORDS) = true) by (vm_compute; reflexivity).
  rewrite forallb_forall in H. specialize (H k Hk).
  apply andb_true_iff in H as [H1 H2].
  apply Nat.leb_le in H1, H2. split; assumption.
Qed.

Lemma stored_handle (t : trie V) (r : request V) :
  reachable t ->
  (forall k, stored t k -> key_ok k) ->
  forall k, stored (handle of_key t r) k -> key_ok k.
Proof.
  intros Hr Hok k. destruct r as [q|q limit|key value|q]; cbn [handle]; try apply Hok.
  - unfold insert_handler. destruct key as [|c key]; [apply Hok|].
    destruct (256 <? length (c :: key))%nat eqn:Hlen; [apply Hok|].
    cbn [snd]. intros Hs. apply stored_insert in Hs; [|exact Hr].
    destruct Hs as [->|Hs]; [|apply Hok; exact Hs].
    apply Nat.ltb_ge in Hlen. unfold key_ok. cbn [length] in *. lia.
  - unfold delete_handler. destruct q as [|c q]; [apply Hok|].
    pose proof (@stored_delete _ t (c :: q) k Hr) as Hd.
    destruct (delete t (c :: q)) as [d t']. cbn [snd] in *.
    intros Hs. apply Hd in Hs as [Hs _]. apply Hok; exact Hs.
Qed.

(** X17: the loop of [GET /prefix] returns the first [max(limit, 1)] keys
    that [keys_with_prefix(q)] yields, or all of them when there are fewer:
    with [limit <= 0] one key is still returned. *)
Theorem prefix_handler_limit (t : trie V) (q : str) (limit : Z) :
  q <> [] ->
  prefix_handler t q limit =
  let matches := firstn (Z.to_nat (Z.max 1 limit)) (keys_with_prefix t q) in
  PrefixResult q (Z.of_nat (length matches)) matches.
Proof.
  intros Hq. destruct q as [|c q]; [contradiction|].
  cbn [prefix_handler]. rewrite take_matches_firstn.
  cbn [length app Z.of_nat]. rewrite Z.sub_0_r. reflexivity.
Qed.

(** X18: whatever requests the service has handled since it was seeded,
    [GET /prefix] with a [q] that is not empty answers 200 with matches
    that begin with [q], are in strictly ascending order, and number at
    most [max(limit, 1)]; [count] is their number. *)
Theorem service_prefix (requests : list (request V)) (q : str) (limit : Z) :
  q <> [] ->
  exists matches,
    prefix_handler (serve of_key requests) q limit
    = PrefixResult q (Z.of_nat (length matches)) matches /\
    ascending matches /\
    (forall k, In k matches -> startswith k q = true) /\
    (Z.of_nat (length matches) <= Z.max 1 limit)%Z.
Proof.
  intros Hq. destruct q as [|c q]; [contradiction|].
  destruct (keys_with_prefix_asc (c :: q) (reachable_serve requests)) as [Ha Hp].
  cbn [prefix_handler]. rewrite take_matches_firstn.
  cbn [length app Z.of_nat]. rewrite Z.sub_0_r.
  eexists. split; [reflexivity|]. split; [|split].
  - revert Ha. generalize (keys_with_prefix (serve of_key requests) (c :: q)).
    generalize (Z.to_nat (Z.max 1 limit)).
    intros n l Hl. revert n. induction Hl as [|a l Hs IH Hfa]; intros [|n]; simpl;
      try constructor.
    + apply IH.
    + rewrite Forall_forall in Hfa |- *. intros x Hx.
      apply Hfa. eapply In_firstn; exact Hx.
  - intros k Hk. apply Hp. eapply In_firstn; exact Hk.
  - rewrite length_firstn. lia.
Qed.

(** X19: whatever requests the service has handled since it was seeded,
    every stored key has between 1 and 256 characters. *)
Theorem service_keys_bounded (requests : list (request V)) (k : str) :
  is_stored (serve of_key requests) k = true -> 1 <= length k <= 256.
Proof.
  intros Hs. apply is_stored_spec in Hs. revert k Hs. unfold serve.
  assert (H : forall t, reachable t -> (forall k, stored t k -> key_ok k) ->
                        forall k, stored (fold_left (handle of_key) requests t) k -> key_ok k).
  { induction requests as [|r rs IH]; intros t Hr Hok; [exact Hok|].
    cbn [fold_left]. apply IH; [apply reachable_handle; exact Hr|].
    apply stored_handle; assumption. }
  apply H; [apply reachable_seeded|].
  intros k Hs. apply stored_seeds in Hs; [|apply reach_empty].
  destruct Hs as [(m & Hm & He)|Hs].
  - inversion Hm; subst; discriminate.
  - pose proof seed_words_ok as Hok. rewrite Forall_forall in Hok. apply Hok; exact Hs.
Qed.

(** X20: [DELETE /delete] with a [q] that is not empty answers 200 when [q]
    is a stored key and reports the size reduced by one; otherwise it
    answers 404 and leaves the trie as it was. *)
Theorem delete_handler_status (t : trie V) (q : str) :
  q <> [] ->
  fst (delete_handler t q)
  = Deleted q (is_stored t q) (if is_stored t q then len t - 1 else len t)%Z /\
  delete_status (fst (delete_handler t q)) = (if is_stored t q then 200 else 404)%Z /\
  (is_stored t q = false -> snd (delete_handler t q) = t).
Proof.
  intros Hq. destruct q as [|c q]; [contradiction|]. cbn [delete_handler].
  pose proof (delete_eq t (c :: q)) as [Hd Hl].
  assert (Hn : is_stored t (c :: q) = false -> snd (delete t (c :: q)) = t).
  { intros Hs. unfold delete in *.
    destruct (delete_node (root t) (c :: q) false) as [[b r]|]; [|reflexivity].
    cbn [fst] in Hd. congruence. }
  destruct (delete t (c :: q)) as [d t']. cbn [fst snd] in *.
  subst d. rewrite Hl. cbn [delete_status]. auto.
Qed.

(** X21: after a [POST /insert] that is accepted, [GET /search] for the same
    key answers with the value that was stored (the key itself when the
    body had no value); [found] is false when that value is [None]. *)
Theorem insert_then_search_handler (t : trie V) (key : str) (value : option (pyval V)) :
  1 <= length key <= 256 ->
  let v := match value with Some v => v | None => Some (of_key key) end in
  search_handler (snd (insert_handler of_key t key value)) key
  = SearchResult key (match v with Some _ => true | None => false end) v.
Proof.
  intros Hlen v. unfold insert_handler. destruct key as [|c key]; [simpl in Hlen; lia|].
  assert (Hl : (256 <? length (c :: key))%nat = false) by (apply Nat.ltb_ge; lia).
  rewrite Hl. cbn [snd search_handler]. fold v.
  rewrite insert_then_search. reflexivity.
Qed.

End ServiceFacts.

(** ** Scenarios *)

Section Scenarios.
Local Open Scope string_scope.

Lemma reachable_apples : reachable apples.
Proof. repeat constructor. Qed.

Lemma reachable_bats : reachable bats.
Proof. repeat constructor. Qed.

(** Scenario 1 of the specification. *)
Example scenario_1 :
  search apples (s2l "app") = Some 2 /\
  search apples (s2l "apple") = Some 1 /\
  starts_with apples (s2l "app") = true /\
  keys_with_prefix apples (s2l "app") = map s2l ["app"; "apple"; "application"].
Proof. repeat split. Qed.

(** Scenario 2 of the specification, as the code runs it: the keys that
    [keys_with_prefix("app")] yields lack the ["l"] of the merged fragment. *)
Example scenario_2 :
  let r := delete apples (s2l "app") in
  fst r = true /\
  search (snd r) (s2l "app") = None /\
  search (snd r) (s2l "apple") = Some 1 /\
  keys_with_prefix (snd r) (s2l "app") = map s2l ["appe"; "appication"] /\
  keys_with_prefix (snd r) [] = map s2l ["apple"; "application"] /\
  len (snd r) = 2%Z.
Proof. repeat split. Qed.

(** Scenario 4 of the specification, on the state of scenario 1. *)
Example scenario_4 :
  search apples (s2l "nonexistent") = None /\
  delete apples (s2l "nonexistent") = (false, apples).
Proof. split; reflexivity. Qed.

(** Scenario 5 of the specification. *)
Example scenario_5 :
  let t := put empty "a" 1 in
  starts_with t (s2l "a") = true /\
  starts_with t (s2l "ab") = false /\
  keys_with_prefix t [] = map s2l ["a"].
Proof. repeat split. Qed.

(** C1, the code differs: [search("appl")] after [insert("apple", 1)]
    ends inside the fragment ["apple"]; ["appl"] is not a stored key, and
    [search] returns the value of ["apple"]. *)
Theorem search_inside_fragment :
  let t := put empty "apple" 1 in
  is_stored t (s2l "appl") = false /\
  ~ stored t (s2l "appl") /\
  search t (s2l "appl") = Some 1.
Proof.
  intros t. split; [reflexivity|]. split; [|reflexivity].
  apply not_stored. reflexivity.
Qed.

(** C2, the code differs: after the three inserts of scenario 3,
    [keys_with_prefix("ba")] ends inside the fragment ["bat"] and yields
    ["ba"], ["bach"], ["bah"], none of which is a stored key. *)
Theorem keys_with_prefix_inside_fragment :
  keys_with_prefix bats (s2l "ba") = map s2l ["ba"; "bach"; "bah"] /\
  keys_with_prefix bats [] = map s2l ["bat"; "batch"; "bath"] /\
  Forall (fun k => ~ stored bats k) (keys_with_prefix bats (s2l "ba")).
Proof.
  split; [reflexivity|]. split; [reflexivity|].
  repeat constructor; apply not_stored; reflexivity.
Qed.

(** C4, the code differs: [delete("app")] returns [True] and merges the
    node of ["app"] with its only child; [search("app")] then ends inside
    the fragment ["apple"] and returns the value of ["apple"]. *)
Theorem search_after_delete :
  fst (delete apple_app (s2l "app")) = true /\
  search (snd (delete apple_app (s2l "app"))) (s2l "app") = Some 1.
Proof. split; reflexivity. Qed.

(** C9, the code differs: on the empty trie no key is stored, and
    [starts_with("")] is [True]. *)
Theorem starts_with_empty :
  starts_with (@empty nat) [] = true /\ forall k, ~ stored (@empty nat) k.
Proof.
  split; [reflexivity|].
  intros k (m & Hm & He). inversion Hm; subst.
  - discriminate.
  - discriminate.
Qed.

Lemma search_a_none (k : str) : search a_none k = None.
Proof.
  assert (Ha : a_none =
              Trie (Node [("a"%char, Node [] true None ["a"%char])] false None []) 1)
    by reflexivity.
  rewrite Ha. unfold search. cbn [root].
  destruct k as [|c k]; [reflexivity|].
  rewrite find_node_cons; cbv zeta. cbn [lookup].
  destruct (Ascii.eqb "a" c) eqn:E; [|reflexivity].
  apply Ascii.eqb_eq in E; subst c. cbn [fragment].
  rewrite match_len_pos.
  replace (match_len k []) with 0 by (destruct k; reflexivity).
  cbn [length Nat.ltb Nat.leb skipn].
  destruct k as [|c k]; [reflexivity|].
  rewrite find_node_cons; reflexivity.
Qed.

(** C3, as stated, fails: after [insert("a", None)] on the empty trie
    [size()] is 1 and [search(k)] is [None] for every [k]. *)
Theorem size_counts_found_fails :
  reachable a_none /\
  ~ exists l, lists_found a_none l /\ len a_none = Z.of_nat (length l).
Proof.
  split; [repeat constructor|].
  intros (l & [_ Hl] & Hlen). destruct l as [|k l].
  - discriminate.
  - apply (proj1 (Hl k)); [left; reflexivity|apply search_a_none].
Qed.

(** The theorems with a hypothesis, at the states of the scenarios. *)

Lemma size_counts_stored_witness :
  lists_stored apples (keys_with_prefix apples []) /\
  len apples = Z.of_nat (length (keys_with_prefix apples [])).
Proof. apply size_counts_stored. repeat constructor. Defined.

Lemma delete_absent_witness :
  fst (delete apples (s2l "appl")) = false /\
  snd (delete apples (s2l "appl")) = apples /\
  len (snd (delete apples (s2l "appl"))) = len apples.
Proof. apply delete_absent. apply not_stored. reflexivity. Defined.

Lemma keys_sorted_witness :
  ascending (keys_with_prefix bats []) /\
  lists_stored bats (keys_with_prefix bats []).
Proof. apply keys_sorted. repeat constructor. Defined.

Lemma reachable_shape_witness :
  (forall m, m = root apples \/ below (root apples) m -> NoDup (first_chars m)) /\
  (forall m, below (root apples) m -> is_end m = false -> 2 <= length (children m)).
Proof. apply reachable_shape. repeat constructor. Defined.

Lemma none_value_hidden_witness :
  let t' := insert apples (s2l "apply") None in
  search t' (s2l "apply") = None /\ contains t' (s2l "apply") = false /\
  In (s2l "apply") (keys_with_prefix t' []) /\
  len t' = Z.of_nat (length (keys_with_prefix t' [])) /\
  len t' = (if is_stored apples (s2l "apply") then len apples else len apples + 1)%Z.
Proof. apply none_value_hidden. repeat constructor. Defined.
(** The further theorems with a hypothesis, at the states of the scenarios
    and of the seeded service. *)

Lemma keys_after_insert_witness :
  In (s2l "apple") (iter (insert apples (s2l "apply") (Some 4)))
  <-> s2l "apple" = s2l "apply" \/ In (s2l "apple") (iter apples).
Proof. apply keys_after_insert. repeat constructor. Defined.

Lemma keys_after_delete_witness :
  In (s2l "apple") (iter (snd (delete apples (s2l "app"))))
  <-> In (s2l "apple") (iter apples) /\ s2l "apple" <> s2l "app".
Proof. apply keys_after_delete. repeat constructor. Defined.

Lemma keys_with_prefix_ordered_witness :
  ascending (keys_with_prefix bats (s2l "ba")) /\
  forall k, In k (keys_with_prefix bats (s2l "ba")) -> startswith k (s2l "ba") = true.
Proof. apply keys_with_prefix_ordered. repeat constructor. Defined.

Lemma keys_with_prefix_nonempty_witness :
  keys_with_prefix bats (s2l "ba") <> [] <-> starts_with bats (s2l "ba") = true.
Proof. apply keys_with_prefix_nonempty; [repeat constructor|discriminate]. Defined.

Lemma starts_with_prefix_of_key_witness :
  starts_with apples (s2l "appli") = true <->
  s2l "appli" = [] \/
  exists k, is_stored apples k = true /\ startswith k (s2l "appli") = true.
Proof. apply starts_with_prefix_of_key. repeat constructor. Defined.

Lemma keys_with_prefix_exact_witness :
  ascending (keys_with_prefix apples (s2l "app")) /\
  forall k, In k (keys_with_prefix apples (s2l "app")) <->
            is_stored apples k = true /\ startswith k (s2l "app") = true.
Proof.
  eapply keys_with_prefix_exact; [repeat constructor|reflexivity].
Defined.

Lemma nodes_bound_witness :
  (Z.of_nat (node_count (root apples)) <= 2 * len apples + 1)%Z.
Proof. apply nodes_bound. repeat constructor. Defined.

Lemma search_other_after_insert_witness :
  search (insert apples (s2l "apply") (Some 4)) (s2l "apple")
  = search apples (s2l "apple").
Proof. apply search_other_after_insert; [reflexivity|discriminate]. Defined.

Lemma search_other_after_delete_witness :
  search (snd (delete apples (s2l "app"))) (s2l "apple")
  = search apples (s2l "apple").
Proof.
  apply search_other_after_delete; [repeat constructor|reflexivity|discriminate].
Defined.

Lemma insert_then_delete_witness :
  delete (insert apples (s2l "apply") (Some 4)) (s2l "apply") = (true, apples).
Proof. apply insert_then_delete; [repeat constructor|reflexivity]. Defined.

Lemma reachable_edges_witness :
  fragment (root apples) = [] /\
  forall m, m = root apples \/ below (root apples) m ->
    NoDup (map fst (children m)) /\
    forall c child, In (c, child) (children m) -> hd_error (fragment child) = Some c.
Proof. apply reachable_edges. repeat constructor. Defined.

Lemma reachable_values_witness : value (root apples) = None.
Proof.
  apply (@reachable_values nat apples);
    [repeat constructor|left; reflexivity|reflexivity].
Defined.

Lemma prefix_handler_limit_witness :
  prefix_handler apples (s2l "app") 0 =
  let matches := firstn (Z.to_nat (Z.max 1 0)) (keys_with_prefix apples (s2l "app")) in
  PrefixResult (s2l "app") (Z.of_nat (length matches)) matches.
Proof. apply prefix_handler_limit. discriminate. Defined.

(** The service with strings as values: [of_key] is the identity. *)
Lemma service_prefix_witness :
  exists matches,
    prefix_handler
      (serve (fun k => k) [PostInsert (s2l "treap") None; DeleteKey (s2l "tree")])
      (s2l "tr") 2
    = PrefixResult (s2l "tr") (Z.of_nat (length matches)) matches /\
    ascending matches /\
    (forall k, In k matches -> startswith k (s2l "tr") = true) /\
    (Z.of_nat (length matches) <= Z.max 1 2)%Z.
Proof. apply service_prefix. discriminate. Defined.

Lemma service_keys_bounded_witness :
  (1 <= length (s2l "treap") <= 256)%nat.
Proof.
  apply (@service_keys_bounded str (fun k => k)
           [PostInsert (s2l "treap") None; DeleteKey (s2l "tree")]).
  vm_compute. reflexivity.
Defined.

Lemma delete_handler_status_witness :
  fst (delete_handler apples (s2l "app"))
  = Deleted (s2l "app") (is_stored apples (s2l "app"))
      (if is_stored apples (s2l "app") then len apples - 1 else len apples)%Z /\
  delete_status (fst (delete_handler apples (s2l "app")))
  = (if is_stored apples (s2l "app") then 200 else 404)%Z /\
  (is_stored apples (s2l "app") = false ->
   snd (delete_handler apples (s2l "app")) = apples).
Proof. apply delete_handler_status. discriminate. Defined.

Lemma insert_then_search_handler_witness :
  let v := match @None (pyval str) with
           | Some v => v
           | None => Some (s2l "treap")
           end in
  search_handler
    (snd (insert_handler (fun k => k) (seeded (fun k => k)) (s2l "treap") None))
    (s2l "treap")
  = SearchResult (s2l "treap") (match v with Some _ => true | None => false end) v.
Proof.
  apply (@insert_then_search_handler str (fun k => k)). simpl. lia.
Defined.
End Scenarios.
